(** * UltraKLUSolver: the KLU wrapper of AkingSPICE (src/wasm/cpp/klu_interface.cpp)

    The class [akingspice::UltraKLUSolver] sequences calls to SuiteSparse:KLU
    (symbolic analysis, numeric factorisation, triangular solve) and keeps
    two owned handles and two status flags.  KLU itself is an external
    library: every call into it is an event of a small free monad, and a
    run of a method against a library yields the result, the new object
    state and the log of the calls made.  The general results hold for
    every library, i.e. for every way KLU may answer; the concrete runs
    use a library that answers from a script. *)

From Stdlib Require Import ZArith List String Bool Lia.
From Stdlib Require Import Floats.SpecFloat.
From stdpp Require Import base option list gmap.

Open Scope Z_scope.

(** ** Machine numbers *)

(** C++ [double]: IEEE-754 binary64, with the operations of the standard
    library's executable specification. *)
Module Double.
Definition double : Type := spec_float.
Definition prec : Z := 53.
Definition emax : Z := 1024.

(** conversion of an integer, [(double) k] *)
Definition of_Z (k : Z) : double := binary_normalize prec emax k 0 false.
Definition div (x y : double) : double := SFdiv prec emax x y.
Definition ltb (x y : double) : bool := SFltb x y.
Definition leb (x y : double) : bool := SFleb x y.

Definition zero : double := S754_zero false.
Definition one : double := Eval vm_compute in of_Z 1.
Definition two : double := Eval vm_compute in of_Z 2.
Definition thousand : double := Eval vm_compute in of_Z 1000.
(** the literals [1e-12] and [1e-10] (nearest binary64 values,
    0x1.19799812dea11p-40 and 0x1.b7cdfd9d7bdbbp-34) *)
Definition lit_1e_12 : double := S754_finite false 4951760157141521 (-92).
Definition lit_1e_10 : double := S754_finite false 7737125245533627 (-86).
End Double.
Import Double.

(** [int] and [size_t] of the wasm32 target: 32 bits each. *)
Definition int_range (z : Z) : Prop := - 2 ^ 31 <= z < 2 ^ 31.
Definition to_int (z : Z) : Z := (z + 2 ^ 31) mod 2 ^ 32 - 2 ^ 31.
Definition to_size_t (z : Z) : Z := z mod 2 ^ 32.

(** ** The KLU objects the wrapper holds *)

(** [klu_symbolic*]: a non-null pointer to KLU's symbolic object.  The
    wrapper reads one field through it, [lnz]. *)
Record klu_symbolic : Type := { sym_addr : positive; lnz : double }.

(** [klu_numeric*]: a non-null pointer to KLU's numeric object (opaque). *)
Record klu_numeric : Type := { num_addr : positive }.

(** [klu_common]: the fields the wrapper writes or reads. *)
Record klu_common : Type := {
  tol : double;
  memgrow : double;
  initmem_amd : double;
  btf : Z;
  ordering : Z;
  scale : Z;
  status : Z
}.

Definition KLU_OK : Z := 0.

Inductive printf_arg : Type :=
| PInt (z : Z)
| PLong (z : Z)
| PDouble (d : double).

(** ** Calls that leave the wrapper

    One constructor per external routine, with the arguments the source
    passes.  A pointer argument that may be null is an [option]; an
    argument passed as [&common_] comes back in the answer; [klu_solve]
    overwrites its buffer [B], so the answer carries the new contents. *)
Inductive kluE : Type -> Type :=
| Klu_defaults : kluE klu_common
| Klu_analyze (n : Z) (Ap Ai : list Z) (c : klu_common)
    : kluE (option klu_symbolic * klu_common)
| Klu_factor (Ap Ai : list Z) (Ax : list double)
    (sym : option klu_symbolic) (c : klu_common)
    : kluE (option klu_numeric * klu_common)
| Klu_solve (sym : option klu_symbolic) (num : option klu_numeric)
    (ldim nrhs : Z) (B : list double) (c : klu_common)
    : kluE (Z * list double * klu_common)
| Klu_condest (sym : option klu_symbolic) (num : option klu_numeric)
    (c : klu_common) : kluE (double * klu_common)
| Klu_free_symbolic (sym : klu_symbolic) (c : klu_common) : kluE klu_common
| Klu_free_numeric (num : klu_numeric) (c : klu_common) : kluE klu_common
| Clock_now : kluE Z
| Printf (fmt : string) (args : list printf_arg) : kluE unit.

(** A call together with its answer. *)
Inductive event : Type :=
| Ev {X : Type} (e : kluE X) (x : X).

(** Programs: finite trees of calls. *)
Inductive prog (A : Type) : Type :=
| Ret (a : A)
| Vis {X : Type} (e : kluE X) (k : X -> prog A).
Arguments Ret {A} a.
Arguments Vis {A X} e k.

Fixpoint pbind {A B : Type} (p : prog A) (f : A -> prog B) : prog B :=
  match p with
  | Ret a => f a
  | Vis e k => Vis e (fun x => pbind (k x) f)
  end.

(** ** The object and the memory around it *)

Definition loc : Type := positive.

(** The data members of [UltraKLUSolver].  A null handle is [None].  The
    constructor leaves [lastFactorTime_] and [lastSolveTime_] without a
    value: [None] until first assigned. *)
Record UltraKLUSolver : Type := {
  symbolic_ : option klu_symbolic;
  numeric_ : option klu_numeric;
  common_ : klu_common;
  n_ : Z;
  Ap_ : list Z;
  Ai_ : list Z;
  isAnalyzed_ : bool;
  isFactorized_ : bool;
  lastFactorTime_ : option double;
  lastSolveTime_ : option double
}.

(** [std::vector<double>] objects that are written through a pointer live
    in [heap], each at its own location: the caller's [rhs] and the
    [solution] member of every [SolveResult]. *)
Record Machine : Type := {
  this : UltraKLUSolver;
  heap : gmap loc (list double)
}.

Record SolveResult : Type := {
  success : bool;
  solution : loc;
  errorMessage : string;
  iterations : Z;
  conditionNumber : option double;
  factorizationTime : option double;
  solveTime : option double
}.

Record MatrixStats : Type := {
  rows : Z;
  cols : Z;
  nnz : Z;
  fillFactor : double;
  isSymmetric : bool;
  conditionEstimate : double
}.

(** A method body: reads and writes the machine, makes calls. *)
Definition M (A : Type) : Type := Machine -> prog (A * Machine).

Definition ret {A : Type} (a : A) : M A := fun m => Ret (a, m).

Definition bind {A B : Type} (c : M A) (f : A -> M B) : M B :=
  fun m => pbind (c m) (fun am => f (fst am) (snd am)).

Definition call {X : Type} (e : kluE X) : M X :=
  fun m => Vis e (fun x => Ret (x, m)).

Definition self : M UltraKLUSolver := fun m => Ret (this m, m).

Definition assign (f : UltraKLUSolver -> UltraKLUSolver) : M unit :=
  fun m => Ret (tt, {| this := f (this m); heap := heap m |}).

#[global] Instance M_ret : MRet M := @ret.
#[global] Instance M_bind : MBind M := fun A B f c => bind c f.

(** Field assignments [field_ = v]. *)
Definition set_symbolic_ (v : option klu_symbolic) (s : UltraKLUSolver) :=
  {| symbolic_ := v; numeric_ := numeric_ s; common_ := common_ s;
     n_ := n_ s; Ap_ := Ap_ s; Ai_ := Ai_ s;
     isAnalyzed_ := isAnalyzed_ s; isFactorized_ := isFactorized_ s;
     lastFactorTime_ := lastFactorTime_ s; lastSolveTime_ := lastSolveTime_ s |}.
Definition set_numeric_ (v : option klu_numeric) (s : UltraKLUSolver) :=
  {| symbolic_ := symbolic_ s; numeric_ := v; common_ := common_ s;
     n_ := n_ s; Ap_ := Ap_ s; Ai_ := Ai_ s;
     isAnalyzed_ := isAnalyzed_ s; isFactorized_ := isFactorized_ s;
     lastFactorTime_ := lastFactorTime_ s; lastSolveTime_ := lastSolveTime_ s |}.
Definition set_common_ (v : klu_common) (s : UltraKLUSolver) :=
  {| symbolic_ := symbolic_ s; numeric_ := numeric_ s; common_ := v;
     n_ := n_ s; Ap_ := Ap_ s; Ai_ := Ai_ s;
     isAnalyzed_ := isAnalyzed_ s; isFactorized_ := isFactorized_ s;
     lastFactorTime_ := lastFactorTime_ s; lastSolveTime_ := lastSolveTime_ s |}.
Definition set_n_ (v : Z) (s : UltraKLUSolver) :=
  {| symbolic_ := symbolic_ s; numeric_ := numeric_ s; common_ := common_ s;
     n_ := v; Ap_ := Ap_ s; Ai_ := Ai_ s;
     isAnalyzed_ := isAnalyzed_ s; isFactorized_ := isFactorized_ s;
     lastFactorTime_ := lastFactorTime_ s; lastSolveTime_ := lastSolveTime_ s |}.
Definition set_Ap_ (v : list Z) (s : UltraKLUSolver) :=
  {| symbolic_ := symbolic_ s; numeric_ := numeric_ s; common_ := common_ s;
     n_ := n_ s; Ap_ := v; Ai_ := Ai_ s;
     isAnalyzed_ := isAnalyzed_ s; isFactorized_ := isFactorized_ s;
     lastFactorTime_ := lastFactorTime_ s; lastSolveTime_ := lastSolveTime_ s |}.
Definition set_Ai_ (v : list Z) (s : UltraKLUSolver) :=
  {| symbolic_ := symbolic_ s; numeric_ := numeric_ s; common_ := common_ s;
     n_ := n_ s; Ap_ := Ap_ s; Ai_ := v;
     isAnalyzed_ := isAnalyzed_ s; isFactorized_ := isFactorized_ s;
     lastFactorTime_ := lastFactorTime_ s; lastSolveTime_ := lastSolveTime_ s |}.
Definition set_isAnalyzed_ (v : bool) (s : UltraKLUSolver) :=
  {| symbolic_ := symbolic_ s; numeric_ := numeric_ s; common_ := common_ s;
     n_ := n_ s; Ap_ := Ap_ s; Ai_ := Ai_ s;
     isAnalyzed_ := v; isFactorized_ := isFactorized_ s;
     lastFactorTime_ := lastFactorTime_ s; lastSolveTime_ := lastSolveTime_ s |}.
Definition set_isFactorized_ (v : bool) (s : UltraKLUSolver) :=
  {| symbolic_ := symbolic_ s; numeric_ := numeric_ s; common_ := common_ s;
     n_ := n_ s; Ap_ := Ap_ s; Ai_ := Ai_ s;
     isAnalyzed_ := isAnalyzed_ s; isFactorized_ := v;
     lastFactorTime_ := lastFactorTime_ s; lastSolveTime_ := lastSolveTime_ s |}.
Definition set_lastFactorTime_ (v : double) (s : UltraKLUSolver) :=
  {| symbolic_ := symbolic_ s; numeric_ := numeric_ s; common_ := common_ s;
     n_ := n_ s; Ap_ := Ap_ s; Ai_ := Ai_ s;
     isAnalyzed_ := isAnalyzed_ s; isFactorized_ := isFactorized_ s;
     lastFactorTime_ := Some v; lastSolveTime_ := lastSolveTime_ s |}.
Definition set_lastSolveTime_ (v : double) (s : UltraKLUSolver) :=
  {| symbolic_ := symbolic_ s; numeric_ := numeric_ s; common_ := common_ s;
     n_ := n_ s; Ap_ := Ap_ s; Ai_ := Ai_ s;
     isAnalyzed_ := isAnalyzed_ s; isFactorized_ := isFactorized_ s;
     lastFactorTime_ := lastFactorTime_ s; lastSolveTime_ := Some v |}.

(** ** Vectors in memory *)

(** contents of the vector at [p] (an address that holds no vector reads
    as the empty vector) *)
Definition contents (h : gmap loc (list double)) (p : loc) : list double :=
  default [] (h !! p).

(** a default-constructed [std::vector<double>], at an unused address *)
Definition new_vector : M loc := fun m =>
  let p := fresh (dom (heap m)) in
  Ret (p, {| this := this m; heap := <[p := []]> (heap m) |}).

(** [v.size()] *)
Definition vector_size (p : loc) : M Z := fun m =>
  Ret (Z.of_nat (length (contents (heap m) p)), m).

(** [dst = src], the copy assignment of [std::vector] *)
Definition vector_assign (dst src : loc) : M unit := fun m =>
  Ret (tt, {| this := this m;
              heap := <[dst := contents (heap m) src]> (heap m) |}).

Definition vector_read (p : loc) : M (list double) := fun m =>
  Ret (contents (heap m) p, m).

(** ** The external routines as the source calls them *)

Definition is_non_null {A : Type} (p : option A) : bool :=
  match p with Some _ => true | None => false end.

(** [klu_free_symbolic(&symbolic_, &common_)]: KLU frees the object and
    stores NULL through the handle pointer. *)
Definition klu_free_symbolic (h : klu_symbolic) : M unit :=
  s ← self;
  c ← call (Klu_free_symbolic h (common_ s));
  assign (set_common_ c);;
  assign (set_symbolic_ None).

(** [klu_free_numeric(&numeric_, &common_)], likewise. *)
Definition klu_free_numeric (h : klu_numeric) : M unit :=
  s ← self;
  c ← call (Klu_free_numeric h (common_ s));
  assign (set_common_ c);;
  assign (set_numeric_ None).

(** [klu_analyze(n, Ap, Ai, &common_)] *)
Definition klu_analyze (n : Z) (Ap Ai : list Z) : M (option klu_symbolic) :=
  s ← self;
  r ← call (Klu_analyze n Ap Ai (common_ s));
  assign (set_common_ r.2);;
  mret r.1.

(** [klu_factor(Ap, Ai, Ax, Symbolic, &common_)] *)
Definition klu_factor (Ap Ai : list Z) (Ax : list double)
    (sym : option klu_symbolic) : M (option klu_numeric) :=
  s ← self;
  r ← call (Klu_factor Ap Ai Ax sym (common_ s));
  assign (set_common_ r.2);;
  mret r.1.

(** [klu_solve(Symbolic, Numeric, ldim, nrhs, B, &common_)]: solves in
    place, the vector at [B] is overwritten. *)
Definition klu_solve (sym : option klu_symbolic) (num : option klu_numeric)
    (ldim nrhs : Z) (B : loc) : M Z := fun m =>
  Vis (Klu_solve sym num ldim nrhs (contents (heap m) B) (common_ (this m)))
      (fun r => Ret (r.1.1,
         {| this := set_common_ r.2 (this m);
            heap := <[B := r.1.2]> (heap m) |})).

(** [klu_condest(Symbolic, Numeric, &common_)] *)
Definition klu_condest (sym : option klu_symbolic) (num : option klu_numeric)
    : M double :=
  s ← self;
  r ← call (Klu_condest sym num (common_ s));
  assign (set_common_ r.2);;
  mret r.1.

(** [std::chrono::high_resolution_clock::now()]: a [time_point], as its
    count of clock ticks.  The tick is a nanosecond in libc++, the
    library Emscripten builds against. *)
Definition now : M Z := call Clock_now.

Definition ticks_per_microsecond : Z := 1000.

(** [std::chrono::duration_cast<std::chrono::microseconds>(end - start)
    .count()]: the tick difference in whole microseconds, truncated
    towards zero. *)
Definition elapsed_microseconds (start end_ : Z) : Z :=
  Z.quot (end_ - start) ticks_per_microsecond.

(** the line feed that ends the format strings *)
Definition LF : string := String (Ascii.ascii_of_nat 10) EmptyString.

Definition printf (fmt : string) (args : list printf_arg) : M unit :=
  call (Printf fmt args).

(** [p->lnz] for a handle that the caller has tested non-null *)
Definition lnz_of (p : option klu_symbolic) : double :=
  match p with Some h => lnz h | None => S754_nan end.

(** ** The class *)

Definition msg_not_factorized : string :=
  "矩陣未分解，請先調用 factorizeMatrix()".
Definition msg_dimension_mismatch : string :=
  "右端向量維度不匹配".
Definition msg_solve_failed : string :=
  "KLU 求解失敗 (可能矩陣奇異)".

(** [UltraKLUSolver::UltraKLUSolver()] *)
Definition UltraKLUSolver_new : prog UltraKLUSolver :=
  Vis Klu_defaults (fun c =>
    Ret {| symbolic_ := None; numeric_ := None;
           common_ := {| tol := lit_1e_12; memgrow := two;
                         initmem_amd := two; btf := 1; ordering := 0;
                         scale := 1; status := status c |};
           n_ := 0; Ap_ := []; Ai_ := [];
           isAnalyzed_ := false; isFactorized_ := false;
           lastFactorTime_ := None; lastSolveTime_ := None |}).

(** [bool analyzeStructure(int n, const std::vector<int>& colPointers,
    const std::vector<int>& rowIndices)] *)
Definition analyzeStructure (n : Z) (colPointers rowIndices : list Z)
    : M bool :=
  s ← self;
  match symbolic_ s with
  | Some h => klu_free_symbolic h
  | None => mret tt
  end;;
  assign (set_n_ n);;
  assign (set_Ap_ colPointers);;
  assign (set_Ai_ rowIndices);;
  start ← now;
  s ← self;
  sym ← klu_analyze n (Ap_ s) (Ai_ s);
  assign (set_symbolic_ sym);;
  end_ ← now;
  let duration := elapsed_microseconds start end_ in
  s ← self;
  assign (set_isAnalyzed_ (is_non_null (symbolic_ s)));;
  assign (set_isFactorized_ false);;
  s ← self;
  if negb (isAnalyzed_ s) then mret false
  else
    (if status (common_ s) =? KLU_OK then
       printf (String.append "KLU 符號分析完成:" LF) [];;
       printf (String.append "  矩陣大小: %dx%d, 非零元素: %d" LF)
         [PInt n; PInt n; PInt (to_int (Z.of_nat (length (Ai_ s))))];;
       printf (String.append "  分析時間: %ld μs" LF) [PLong duration];;
       printf (String.append "  預估填充因子: %.2f" LF)
         [PDouble (div (lnz_of (symbolic_ s))
                       (of_Z (Z.of_nat (length (Ai_ s)))))]
     else mret tt);;
    mret true.

(** [bool factorizeMatrix(const std::vector<double>& values)] *)
Definition factorizeMatrix (values : list double) : M bool :=
  s ← self;
  if negb (isAnalyzed_ s) then mret false
  else
    match numeric_ s with
    | Some h => klu_free_numeric h
    | None => mret tt
    end;;
    start ← now;
    s ← self;
    num ← klu_factor (Ap_ s) (Ai_ s) values (symbolic_ s);
    assign (set_numeric_ num);;
    end_ ← now;
    assign (set_lastFactorTime_
              (div (of_Z (elapsed_microseconds start end_)) thousand));;
    s ← self;
    assign (set_isFactorized_ (is_non_null (numeric_ s)));;
    s ← self;
    if negb (isFactorized_ s) then
      printf (String.append "KLU 數值分解失敗: status = %d" LF)
        [PInt (status (common_ s))];;
      mret false
    else mret true.

(** [double computeResidualNorm(const std::vector<double>& b,
    const std::vector<double>& x) const]: a constant in the source. *)
Definition computeResidualNorm (b x : list double) : double := lit_1e_12.

(** [SolveResult solveSystem(const std::vector<double>& rhs)].  The local
    [result] owns a vector of its own, at [sol]. *)
Definition solveSystem (rhs : loc) : M SolveResult :=
  sol ← new_vector;
  s ← self;
  let factorizationTime0 := lastFactorTime_ s in
  if negb (isFactorized_ s) then
    mret {| success := false; solution := sol;
            errorMessage := msg_not_factorized; iterations := 0;
            conditionNumber := None;
            factorizationTime := factorizationTime0; solveTime := None |}
  else
    rhs_size ← vector_size rhs;
    if negb (rhs_size =? to_size_t (n_ s)) then
      mret {| success := false; solution := sol;
              errorMessage := msg_dimension_mismatch; iterations := 0;
              conditionNumber := None;
              factorizationTime := factorizationTime0; solveTime := None |}
    else
      vector_assign sol rhs;;
      start ← now;
      solveStatus ← klu_solve (symbolic_ s) (numeric_ s) (n_ s) 1 sol;
      end_ ← now;
      let solveTime1 :=
        div (of_Z (elapsed_microseconds start end_)) thousand in
      assign (set_lastSolveTime_ solveTime1);;
      if negb (solveStatus =? 1) then
        mret {| success := false; solution := sol;
                errorMessage := msg_solve_failed; iterations := 0;
                conditionNumber := None;
                factorizationTime := factorizationTime0;
                solveTime := Some solveTime1 |}
      else
        cond ← klu_condest (symbolic_ s) (numeric_ s);
        b ← vector_read rhs;
        x ← vector_read sol;
        let residualNorm := computeResidualNorm b x in
        (if ltb lit_1e_10 residualNorm then
           printf (String.append "警告: 殘差較大 (%.2e)，可能數值不穩定" LF)
             [PDouble residualNorm]
         else mret tt);;
        mret {| success := true; solution := sol;
                errorMessage := ""; iterations := 1;
                conditionNumber := Some cond;
                factorizationTime := factorizationTime0;
                solveTime := Some solveTime1 |}.

(** [MatrixStats getStatistics() const]; [klu_condest] receives
    [const_cast<klu_common*>(&common_)] and may write it. *)
Definition getStatistics : M MatrixStats :=
  s ← self;
  let fillFactor1 :=
    match symbolic_ s with
    | Some h => div (lnz h) (of_Z (Z.of_nat (length (Ai_ s))))
    | None => zero
    end in
  conditionEstimate1 ←
    match numeric_ s with
    | Some _ => klu_condest (symbolic_ s) (numeric_ s)
    | None => mret zero
    end;
  mret {| rows := n_ s; cols := n_ s;
          nnz := to_int (Z.of_nat (length (Ai_ s)));
          fillFactor := fillFactor1; isSymmetric := false;
          conditionEstimate := conditionEstimate1 |}.

(** [void cleanup()] *)
Definition cleanup : M unit :=
  s ← self;
  match numeric_ s with
  | Some h => klu_free_numeric h;; assign (set_numeric_ None)
  | None => mret tt
  end;;
  s ← self;
  match symbolic_ s with
  | Some h => klu_free_symbolic h;; assign (set_symbolic_ None)
  | None => mret tt
  end;;
  assign (set_isAnalyzed_ false);;
  assign (set_isFactorized_ false).

(** ** Running a method against a library *)

(** A KLU implementation (with the clock and the console): how each
    routine answers, given the state [W] of the world outside the
    wrapper. *)
Class KluLibrary (W : Type) : Type := {
  lib_defaults : W -> klu_common * W;
  lib_analyze : Z -> list Z -> list Z -> klu_common -> W ->
                (option klu_symbolic * klu_common) * W;
  lib_factor : list Z -> list Z -> list double -> option klu_symbolic ->
               klu_common -> W -> (option klu_numeric * klu_common) * W;
  lib_solve : option klu_symbolic -> option klu_numeric -> Z -> Z ->
              list double -> klu_common -> W ->
              (Z * list double * klu_common) * W;
  lib_condest : option klu_symbolic -> option klu_numeric -> klu_common ->
                W -> (double * klu_common) * W;
  lib_free_symbolic : klu_symbolic -> klu_common -> W -> klu_common * W;
  lib_free_numeric : klu_numeric -> klu_common -> W -> klu_common * W;
  lib_now : W -> Z * W;
  lib_printf : string -> list printf_arg -> W -> unit * W
}.

Definition respond {W : Type} `{KluLibrary W} {X : Type} (e : kluE X)
    : W -> X * W :=
  match e in kluE X return W -> X * W with
  | Klu_defaults => lib_defaults
  | Klu_analyze n Ap Ai c => lib_analyze n Ap Ai c
  | Klu_factor Ap Ai Ax sym c => lib_factor Ap Ai Ax sym c
  | Klu_solve sym num ldim nrhs B c => lib_solve sym num ldim nrhs B c
  | Klu_condest sym num c => lib_condest sym num c
  | Klu_free_symbolic h c => lib_free_symbolic h c
  | Klu_free_numeric h c => lib_free_numeric h c
  | Clock_now => lib_now
  | Printf fmt args => lib_printf fmt args
  end.

(** The outcome of a run: the value, the world afterwards and the calls
    made, in order. *)
Record outcome (A W : Type) : Type := Outcome {
  value : A;
  world : W;
  calls : list event
}.
Arguments Outcome {A W} value world calls.
Arguments value {A W} o.
Arguments world {A W} o.
Arguments calls {A W} o.

Fixpoint run {W : Type} `{KluLibrary W} {A : Type} (p : prog A) (w : W)
    : outcome A W :=
  match p with
  | Ret a => Outcome a w []
  | Vis e k =>
      let r := respond e w in
      let o := run (k r.1) r.2 in
      Outcome (value o) (world o) (Ev e r.1 :: calls o)
  end.

(** a method run from machine [m] in world [w] *)
Definition exec {W : Type} `{KluLibrary W} {A : Type} (c : M A)
    (m : Machine) (w : W) : outcome (A * Machine) W :=
  run (c m) w.

(** ** The three states of the specification

    The source has no state variable: the specification's state is read
    off the two flags. *)

Inductive State : Type := Empty | Analyzed | Factorized.

Definition state_of (s : UltraKLUSolver) : State :=
  if isFactorized_ s then Factorized
  else if isAnalyzed_ s then Analyzed
  else Empty.

(** ** A scripted library

    A KLU stand-in whose answers are read off a script, one entry per
    call of [klu_analyze], [klu_factor], [klu_solve] or [klu_condest]; a
    call that finds no matching entry fails.  The clock advances by 1500
    ticks (1.5 microseconds) per reading.  It fixes the library's side
    of the concrete runs below. *)
Module Script.

Inductive answer : Type :=
| analyze_gives (sym : option klu_symbolic) (st : Z)
| factor_gives (num : option klu_numeric) (st : Z)
| solve_gives (ok : Z) (x : list double)
| condest_gives (d : double).

Record world : Type := { clock : Z; script : list answer }.

Definition with_status (st : Z) (c : klu_common) : klu_common :=
  {| tol := tol c; memgrow := memgrow c; initmem_amd := initmem_amd c;
     btf := btf c; ordering := ordering c; scale := scale c;
     status := st |}.

Definition KLU_INVALID : Z := -3.

Definition next (w : world) : world :=
  {| clock := clock w; script := tail (script w) |}.

(** what [klu_defaults] stores, for the fields modelled *)
Definition defaults : klu_common :=
  {| tol := div (of_Z 1) (of_Z 1000);
     memgrow := div (of_Z 6) (of_Z 5);
     initmem_amd := div (of_Z 6) (of_Z 5);
     btf := 1; ordering := 0; scale := 2; status := KLU_OK |}.

#[global] Instance library : KluLibrary world := {
  lib_defaults w := (defaults, w);
  lib_analyze n Ap Ai c w :=
    match script w with
    | analyze_gives sym st :: _ => ((sym, with_status st c), next w)
    | _ => ((None, with_status KLU_INVALID c), next w)
    end;
  lib_factor Ap Ai Ax sym c w :=
    match script w with
    | factor_gives num st :: _ => ((num, with_status st c), next w)
    | _ => ((None, with_status KLU_INVALID c), next w)
    end;
  lib_solve sym num ldim nrhs B c w :=
    match script w with
    | solve_gives ok x :: _ => ((ok, x, c), next w)
    | _ => ((0, B, with_status KLU_INVALID c), next w)
    end;
  lib_condest sym num c w :=
    match script w with
    | condest_gives d :: _ => ((d, c), next w)
    | _ => ((zero, with_status KLU_INVALID c), next w)
    end;
  lib_free_symbolic h c w := (c, w);
  lib_free_numeric h c w := (c, w);
  lib_now w := (clock w, {| clock := clock w + 1500; script := script w |});
  lib_printf fmt args w := (tt, w)
}.

Definition start (answers : list answer) : world :=
  {| clock := 0; script := answers |}.

End Script.

(** ** Reading a call log *)

(** What a call does to the owned artifacts. *)
Inductive artifact_op : Type :=
| Release_symbolic (h : klu_symbolic)
| Acquire_symbolic (h : option klu_symbolic)
| Release_numeric (h : klu_numeric)
| Acquire_numeric (h : option klu_numeric).

Definition artifact_of (ev : event) : option artifact_op :=
  match ev with
  | @Ev X e x =>
      match e in kluE X return X -> option artifact_op with
      | Klu_free_symbolic h _ => fun _ => Some (Release_symbolic h)
      | Klu_analyze _ _ _ _ => fun r => Some (Acquire_symbolic r.1)
      | Klu_free_numeric h _ => fun _ => Some (Release_numeric h)
      | Klu_factor _ _ _ _ _ => fun r => Some (Acquire_numeric r.1)
      | _ => fun _ => None
      end x
  end.

Definition artifact_ops (t : list event) : list artifact_op :=
  omap artifact_of t.

(** The pattern, values and symbolic handle handed to [klu_factor]. *)
Definition factor_input (ev : event)
    : option (list Z * list Z * list double * option klu_symbolic) :=
  match ev with
  | @Ev X e _ =>
      match e with
      | Klu_factor Ap Ai Ax sym _ => Some (Ap, Ai, Ax, sym)
      | _ => None
      end
  end.

Definition factor_inputs (t : list event) :=
  omap factor_input t.

(** The buffer handed to [klu_solve]. *)
Definition solve_buffer (ev : event) : option (list double) :=
  match ev with
  | @Ev X e _ =>
      match e with
      | Klu_solve _ _ _ _ B _ => Some B
      | _ => None
      end
  end.

Definition solve_buffers (t : list event) : list (list double) :=
  omap solve_buffer t.

Arguments div : simpl never.
Arguments of_Z : simpl never.
Arguments leb : simpl never.
Arguments ltb : simpl never.
Arguments to_int : simpl never.
Arguments to_size_t : simpl never.
Arguments elapsed_microseconds : simpl never.


(** ** Sequences of public operations *)

Inductive operation : Type :=
| Op_analyzeStructure (n : Z) (colPointers rowIndices : list Z)
| Op_factorizeMatrix (values : list double)
| Op_solveSystem (rhs : loc)
| Op_getStatistics
| Op_cleanup.

Definition perform (op : operation) : M unit :=
  match op with
  | Op_analyzeStructure n colPointers rowIndices =>
      analyzeStructure n colPointers rowIndices;; mret tt
  | Op_factorizeMatrix values => factorizeMatrix values;; mret tt
  | Op_solveSystem rhs => solveSystem rhs;; mret tt
  | Op_getStatistics => getStatistics;; mret tt
  | Op_cleanup => cleanup
  end.

(** The object states that a caller can bring about: construction, then
    any operations, each with any arguments, against any memory and any
    state of the world. *)
Inductive reachable {W : Type} `{KluLibrary W} : UltraKLUSolver -> Prop :=
| reach_new (w : W) : reachable (value (run UltraKLUSolver_new w))
| reach_step (s : UltraKLUSolver) (op : operation)
    (h : gmap loc (list double)) (w : W) :
    reachable s ->
    reachable (this (value (exec (perform op) {| this := s; heap := h |} w)).2).

(** The flags agree with each other and with the symbolic handle. *)
Definition consistent (s : UltraKLUSolver) : Prop :=
  (isFactorized_ s = true -> isAnalyzed_ s = true) /\
  (isAnalyzed_ s = true -> is_Some (symbolic_ s)).

(** ** The data model of the specification *)

(** A valid [SparseMatrixPattern], in the words of the specification: a
    CSC pattern of order [n] has [n+1] non-decreasing column pointers
    starting at 0, and [columnPointers[n]] row indices, each in
    [[0, n)]. *)
Fixpoint non_decreasing (l : list Z) : bool :=
  match l with
  | x :: (y :: _) as t => (x <=? y) && non_decreasing t
  | _ => true
  end.

Definition valid_csc (n : Z) (columnPointers rowIndices : list Z) : bool :=
  (0 <=? n)
  && (Z.of_nat (length columnPointers) =? n + 1)
  && (nth 0 columnPointers 1 =? 0)
  && non_decreasing columnPointers
  && (Z.of_nat (length rowIndices) =? List.last columnPointers 0)
  && forallb (fun i => (0 <=? i) && (i <? n)) rowIndices.

(** ** Statements of the specification that the runs below test *)

(** [analyzeStructure] releases the numeric handle it finds. *)
Definition analyze_releases_numeric {W : Type} `{KluLibrary W}
    (m : Machine) (w : W) (n : Z) (colPointers rowIndices : list Z) : Prop :=
  let o := exec (analyzeStructure n colPointers rowIndices) m w in
  forall h, numeric_ (this m) = Some h ->
    In (Release_numeric h) (artifact_ops (calls o)) /\
    numeric_ (this (value o).2) <> Some h.

(** After a successful [analyzeStructure], [getStatistics] reports
    [fillFactor >= 1.0]. *)
Definition fill_factor_at_least_one {W : Type} `{KluLibrary W}
    (m : Machine) (w : W) (n : Z) (colPointers rowIndices : list Z) : Prop :=
  let o := exec (analyzeStructure n colPointers rowIndices) m w in
  (value o).1 = true ->
  leb one (fillFactor (value (exec getStatistics (value o).2 (world o))).1)
  = true.

(** [solveSystem] reports one iteration. *)
Definition solve_reports_one_iteration {W : Type} `{KluLibrary W}
    (m : Machine) (w : W) (rhs : loc) : Prop :=
  iterations (value (exec (solveSystem rhs) m w)).1 = 1.

(** [factorizeMatrix] rejects a values vector of the wrong length without
    calling [klu_factor] and without touching the object. *)
Definition factorize_validates_length {W : Type} `{KluLibrary W}
    (m : Machine) (w : W) (values : list double) : Prop :=
  let o := exec (factorizeMatrix values) m w in
  length values <> length (Ai_ (this m)) ->
  (value o).1 = false /\ (value o).2 = m /\ factor_inputs (calls o) = [].

(** ** A concrete run: an upper triangular 2 x 2 pattern

    Column 0 holds row 0, column 1 holds rows 0 and 1: three nonzeros.
    KLU answers the analysis with a handle whose [lnz] is 2 (the
    nonzeros of L, diagonal included) and the factorisation with a
    handle. *)
Module Triangular.

Definition n : Z := 2.
Definition colPointers : list Z := [0; 1; 3].
Definition rowIndices : list Z := [0; 0; 1].

Definition sym : klu_symbolic := {| sym_addr := 1%positive; lnz := of_Z 2 |}.
Definition num : klu_numeric := {| num_addr := 2%positive |}.

Definition w0 : Script.world :=
  Script.start [Script.analyze_gives (Some sym) KLU_OK;
                Script.factor_gives (Some num) KLU_OK].

(** a new solver, in a memory that holds two vectors: [rhs], of
    length 2, and [short_rhs], of length 1 *)
Definition rhs : loc := 1%positive.
Definition short_rhs : loc := 2%positive.
Definition memory : gmap loc (list double) :=
  <[short_rhs := [of_Z 2]]> {[ rhs := [of_Z 2; of_Z 4] ]}.
Definition constructed : outcome UltraKLUSolver Script.world :=
  run UltraKLUSolver_new w0.
Definition fresh_machine : Machine :=
  {| this := value constructed; heap := memory |}.

(** ... after [analyzeStructure(2, [0,1,3], [0,0,1])] *)
Definition analyzed : outcome (bool * Machine) Script.world :=
  exec (analyzeStructure n colPointers rowIndices)
       fresh_machine (world constructed).

(** ... after [factorizeMatrix] with the three values *)
Definition factorized : outcome (bool * Machine) Script.world :=
  exec (factorizeMatrix [of_Z 2; of_Z 1; of_Z 2])
       (value analyzed).2 (world analyzed).

(** ... or instead after [factorizeMatrix] with no value at all *)
Definition factorized_short : outcome (bool * Machine) Script.world :=
  exec (factorizeMatrix []) (value analyzed).2 (world analyzed).

(** ... or instead after a factorisation that KLU fails as singular *)
Definition singular : Script.world :=
  Script.start [Script.factor_gives None 1].

(** the solve of [2 1; 0 2] x = [2; 4], which KLU answers with [0; 2] *)
Definition solving : Script.world :=
  Script.start [Script.solve_gives 1 [of_Z 0; of_Z 2];
                Script.condest_gives (of_Z 1)].

(** a second analysis of the same pattern, answered with a new handle *)
Definition sym' : klu_symbolic := {| sym_addr := 3%positive; lnz := of_Z 2 |}.
Definition reanalysing : Script.world :=
  Script.start [Script.analyze_gives (Some sym') KLU_OK].

(** the same states as a sequence of operations *)
Definition reached_analyzed : UltraKLUSolver :=
  this (value (exec (perform (Op_analyzeStructure n colPointers rowIndices))
                    {| this := value (run UltraKLUSolver_new w0);
                       heap := memory |} w0)).2.
Definition reached_factorized : UltraKLUSolver :=
  this (value (exec (perform (Op_factorizeMatrix [of_Z 2; of_Z 1; of_Z 2]))
                    {| this := reached_analyzed; heap := memory |}
                    (world analyzed))).2.

End Triangular.

(** ** Two more concrete runs, on the solver and memory of [Triangular] *)
Module Degenerate.

(** an analysis of order -1 that the library accepts, then a
    factorisation *)
Definition w0 : Script.world :=
  Script.start [Script.analyze_gives (Some Triangular.sym) KLU_OK;
                Script.factor_gives (Some Triangular.num) KLU_OK].
Definition analyzed : outcome (bool * Machine) Script.world :=
  exec (analyzeStructure (-1) [0] []) Triangular.fresh_machine w0.
Definition factorized : outcome (bool * Machine) Script.world :=
  exec (factorizeMatrix []) (value analyzed).2 (world analyzed).

(** an analysis that the library refuses *)
Definition refusing : Script.world :=
  Script.start [Script.analyze_gives None Script.KLU_INVALID].

End Degenerate.

(** ** The rest of the class: destruction, and whole lives of an object *)

(** [~UltraKLUSolver()] *)
Definition destructor : M unit := cleanup.

(** operations in sequence on one object *)
Fixpoint perform_all (ops : list operation) : M unit :=
  match ops with
  | [] => mret tt
  | op :: rest => perform op;; perform_all rest
  end.

(** construction, any operations, destruction *)
Definition lifetime (ops : list operation) (h : gmap loc (list double))
    : prog (unit * Machine) :=
  pbind UltraKLUSolver_new (fun s =>
    (perform_all ops;; destructor) {| this := s; heap := h |}).

(** ** Ownership of the two handles, replayed on a call log *)

#[global] Instance spec_float_eq_dec : EqDecision spec_float.
Proof. solve_decision. Defined.
#[global] Instance klu_symbolic_eq_dec : EqDecision klu_symbolic.
Proof. solve_decision. Defined.
#[global] Instance klu_numeric_eq_dec : EqDecision klu_numeric.
Proof. solve_decision. Defined.

(** the handles held: what [symbolic_] and [numeric_] point to *)
Definition held : Type := option klu_symbolic * option klu_numeric.

Definition holds (s : UltraKLUSolver) : held := (symbolic_ s, numeric_ s).

(** One artifact call against the handles held.  A release is legal only
    of the handle held; an acquisition only into an empty slot (anything
    else would free a handle twice or drop a live one). *)
Definition apply_op (st : held) (op : artifact_op) : option held :=
  match op with
  | Release_symbolic h =>
      if decide (st.1 = Some h) then Some (None, st.2) else None
  | Acquire_symbolic r =>
      match st.1 with None => Some (r, st.2) | Some _ => None end
  | Release_numeric h =>
      if decide (st.2 = Some h) then Some (st.1, None) else None
  | Acquire_numeric r =>
      match st.2 with None => Some (st.1, r) | Some _ => None end
  end.

Fixpoint replay (st : held) (ops : list artifact_op) : option held :=
  match ops with
  | [] => Some st
  | op :: rest =>
      match apply_op st op with
      | Some st' => replay st' rest
      | None => None
      end
  end.

(** ** More readers of a call log *)

Inductive routine : Type :=
| R_klu_defaults | R_klu_analyze | R_klu_factor | R_klu_solve
| R_klu_condest | R_klu_free_symbolic | R_klu_free_numeric
| R_now | R_printf.

Definition routine_of (ev : event) : routine :=
  match ev with
  | @Ev X e _ =>
      match e with
      | Klu_defaults => R_klu_defaults
      | Klu_analyze _ _ _ _ => R_klu_analyze
      | Klu_factor _ _ _ _ _ => R_klu_factor
      | Klu_solve _ _ _ _ _ _ => R_klu_solve
      | Klu_condest _ _ _ => R_klu_condest
      | Klu_free_symbolic _ _ => R_klu_free_symbolic
      | Klu_free_numeric _ _ => R_klu_free_numeric
      | Clock_now => R_now
      | Printf _ _ => R_printf
      end
  end.

Definition routines (t : list event) : list routine := map routine_of t.

(** the arguments of [klu_analyze] *)
Definition analyze_input (ev : event) : option (Z * list Z * list Z) :=
  match ev with
  | @Ev X e _ =>
      match e with
      | Klu_analyze n Ap Ai _ => Some (n, Ap, Ai)
      | _ => None
      end
  end.

Definition analyze_inputs (t : list event) := omap analyze_input t.

(** the handle each call of [klu_analyze] returned *)
Definition analyze_result (ev : event) : option (option klu_symbolic) :=
  match ev with
  | @Ev X e x =>
      match e in kluE X return X -> option (option klu_symbolic) with
      | Klu_analyze _ _ _ _ => fun r => Some r.1
      | _ => fun _ => None
      end x
  end.

Definition analyze_results (t : list event) := omap analyze_result t.

(** the handle each call of [klu_factor] returned *)
Definition factor_result (ev : event) : option (option klu_numeric) :=
  match ev with
  | @Ev X e x =>
      match e in kluE X return X -> option (option klu_numeric) with
      | Klu_factor _ _ _ _ _ => fun r => Some r.1
      | _ => fun _ => None
      end x
  end.

Definition factor_results (t : list event) := omap factor_result t.

(** a call of [klu_solve]: handles, dimensions and buffer passed; status
    and buffer contents returned *)
Record solve_call : Type := {
  solve_symbolic : option klu_symbolic;
  solve_numeric : option klu_numeric;
  solve_ldim : Z;
  solve_nrhs : Z;
  solve_in : list double;
  solve_status : Z;
  solve_out : list double
}.

Definition solve_call_of (ev : event) : option solve_call :=
  match ev with
  | @Ev X e x =>
      match e in kluE X return X -> option solve_call with
      | Klu_solve sym num ldim nrhs B _ => fun r =>
          Some {| solve_symbolic := sym; solve_numeric := num;
                  solve_ldim := ldim; solve_nrhs := nrhs; solve_in := B;
                  solve_status := r.1.1; solve_out := r.1.2 |}
      | _ => fun _ => None
      end x
  end.

Definition solve_calls (t : list event) := omap solve_call_of t.

(** a call of [klu_condest]: handles passed, estimate returned *)
Definition condest_call_of (ev : event)
    : option (option klu_symbolic * option klu_numeric * double) :=
  match ev with
  | @Ev X e x =>
      match e in kluE X
            return X -> option (option klu_symbolic * option klu_numeric
                                * double) with
      | Klu_condest sym num _ => fun r => Some (sym, num, r.1)
      | _ => fun _ => None
      end x
  end.

Definition condest_calls (t : list event) := omap condest_call_of t.

(** the readings of the clock *)
Definition clock_reading (ev : event) : option Z :=
  match ev with
  | @Ev X e x =>
      match e in kluE X return X -> option Z with
      | Clock_now => fun t => Some t
      | _ => fun _ => None
      end x
  end.

Definition clock_readings (t : list event) := omap clock_reading t.

(** The flags say what the handles say: [isAnalyzed_] exactly when a
    symbolic handle is held, [isFactorized_] only when a numeric handle
    is. *)
Definition flags_match_handles (s : UltraKLUSolver) : Prop :=
  isAnalyzed_ s = is_non_null (symbolic_ s) /\
  (isFactorized_ s = true -> is_Some (numeric_ s)).

(** The fields no operation but [analyzeStructure] writes. *)
Definition pattern_of (s : UltraKLUSolver) : Z * list Z * list Z :=
  (n_ s, Ap_ s, Ai_ s).

(** Unfolds the monad and the wrappers of the external routines, leaving
    the run of a method as a term over the library's answers. *)
Ltac unfold_method :=
  cbv beta iota zeta delta
    [exec mbind mret M_bind M_ret bind ret self assign call now printf
     klu_analyze klu_factor klu_solve klu_condest klu_free_symbolic
     klu_free_numeric new_vector vector_size vector_assign vector_read];
  cbn [pbind run respond value world calls fst snd this heap].

(** Decides the outermost test of a run and simplifies what follows. *)
Ltac decide_test :=
  match goal with
  | |- context [run ((if ?b then _ else _) _)] => destruct b eqn:?
  | |- context [run (pbind ((if ?b then _ else _) _) _)] => destruct b eqn:?
  | |- context [run (pbind (match ?o with Some _ => _ | None => _ end _) _)] =>
      destruct o eqn:?
  end;
  cbn [pbind run respond value world calls fst snd this heap negb] in *.

Section AnyLibrary.

Context {W : Type} `{KluLibrary W}.

Lemma state_of_Empty s :
  state_of s = Empty <-> isAnalyzed_ s = false /\ isFactorized_ s = false.
Proof.
  unfold state_of. destruct (isFactorized_ s), (isAnalyzed_ s); intuition congruence.
Qed.

Lemma state_of_not_Factorized s :
  state_of s <> Factorized <-> isFactorized_ s = false.
Proof.
  unfold state_of. destruct (isFactorized_ s), (isAnalyzed_ s); intuition congruence.
Qed.

(** The guard of [factorizeMatrix]: without the analysis flag the call
    returns false at once. *)
Lemma factorizeMatrix_not_analyzed (m : Machine) (w : W)
    (values : list double) :
  isAnalyzed_ (this m) = false ->
  exec (factorizeMatrix values) m w = Outcome (false, m) w [].
Proof.
  intros HA. destruct m as [s h]; cbn [this] in *.
  unfold factorizeMatrix. unfold_method. by rewrite HA.
Qed.

(** C5: [factorizeMatrix] in state [Empty], with any values, returns
    false and changes nothing: the machine (every field of the object,
    the memory) and the world are as before and no external routine is
    called, so no artifact is created and the state is still [Empty]. *)
Theorem factorizeMatrix_before_analysis (m : Machine) (w : W)
    (values : list double) :
  state_of (this m) = Empty ->
  exec (factorizeMatrix values) m w = Outcome (false, m) w [].
Proof.
  intros [HA _]%state_of_Empty. by apply factorizeMatrix_not_analyzed.
Qed.

(** The guard of [solveSystem]: without the factorisation flag the call
    fails at once. *)
Lemma solveSystem_unfactorized (m : Machine) (w : W) (rhs : loc) :
  isFactorized_ (this m) = false ->
  let o := exec (solveSystem rhs) m w in
  success (value o).1 = false /\
  errorMessage (value o).1 = msg_not_factorized /\
  this (value o).2 = this m /\
  world o = w /\ calls o = [].
Proof.
  intros HF. destruct m as [s h]; cbn [this] in *.
  unfold solveSystem. unfold_method. rewrite HF. cbn. auto.
Qed.

(** C3: for every [rhs], [solveSystem] on a solver that is not in state
    [Factorized] returns [success = false] with the not-factorized
    message; the object is exactly as before, and no external routine is
    called. *)
Theorem solveSystem_not_factorized (m : Machine) (w : W) (rhs : loc) :
  state_of (this m) <> Factorized ->
  let o := exec (solveSystem rhs) m w in
  success (value o).1 = false /\
  errorMessage (value o).1 = msg_not_factorized /\
  this (value o).2 = this m /\
  world o = w /\ calls o = [].
Proof.
  intros HF%state_of_not_Factorized. by apply solveSystem_unfactorized.
Qed.

(** A new vector never hides an existing one: [contents] at any
    address is unchanged. *)
Lemma contents_new_vector (h : gmap loc (list double)) (p : loc) :
  contents (<[fresh (dom h) := []]> h) p = contents h p.
Proof.
  unfold contents. destruct (decide (p = fresh (dom h))) as [->|Hne].
  - rewrite lookup_insert_eq.
    rewrite (proj1 (not_elem_of_dom h _) (is_fresh (dom h))). reflexivity.
  - rewrite lookup_insert_ne by congruence. reflexivity.
Qed.

Lemma to_size_t_nonneg (z : Z) : 0 <= z -> int_range z -> to_size_t z = z.
Proof.
  unfold int_range, to_size_t. intros Hz [_ Hlt].
  apply Z.mod_small. lia.
Qed.

(** C6: in state [Factorized], for any order [n_ >= 0], [solveSystem]
    with an [rhs] whose length differs from [n_] returns
    [success = false] with the dimension-mismatch message; [klu_solve] is
    not called (no external routine is) and the object is as before. *)
Theorem solveSystem_dimension_mismatch (m : Machine) (w : W) (rhs : loc) :
  state_of (this m) = Factorized ->
  int_range (n_ (this m)) ->
  0 <= n_ (this m) ->
  Z.of_nat (length (contents (heap m) rhs)) <> n_ (this m) ->
  let o := exec (solveSystem rhs) m w in
  success (value o).1 = false /\
  errorMessage (value o).1 = msg_dimension_mismatch /\
  this (value o).2 = this m /\
  world o = w /\ calls o = [].
Proof.
  intros HF Hr Hn Hlen. destruct m as [s h]; cbn [this heap] in *.
  assert (isFactorized_ s = true) as HF'.
  { unfold state_of in HF. destruct (isFactorized_ s), (isAnalyzed_ s); congruence. }
  unfold solveSystem. unfold_method. rewrite HF'. cbn [negb].
  decide_test; [auto|].
  rewrite (to_size_t_nonneg _ Hn Hr), contents_new_vector in *.
  apply negb_false_iff, Z.eqb_eq in Heqb. contradiction.
Qed.

(** The caller's vectors are not written: the only vector handed to
    [klu_solve] is the one [result] owns. *)
Lemma solveSystem_frame (m : Machine) (w : W) (rhs p : loc) :
  is_Some (heap m !! p) ->
  heap (value (exec (solveSystem rhs) m w)).2 !! p = heap m !! p.
Proof.
  intros Hp. destruct m as [s h]; cbn [this heap] in *.
  assert (p <> fresh (dom h)) as Hne.
  { intros ->. apply (is_fresh (dom h)). by apply elem_of_dom. }
  unfold solveSystem. unfold_method.
  destruct (isFactorized_ s); cbn [negb pbind run value snd heap];
    [|by rewrite lookup_insert_ne].
  repeat decide_test; cbn [set_common_ set_lastSolveTime_ this heap];
    by rewrite !lookup_insert_ne.
Qed.

(** [klu_solve] works on a copy: the buffer it receives holds what
    [rhs] holds. *)
Lemma solveSystem_buffers (m : Machine) (w : W) (rhs : loc) (B : list double) :
  In B (solve_buffers (calls (exec (solveSystem rhs) m w))) ->
  B = contents (heap m) rhs.
Proof.
  destruct m as [s h]; cbn [this heap] in *.
  unfold solveSystem. unfold_method.
  destruct (isFactorized_ s); cbn [negb pbind run calls]; [|by intros []].
  repeat decide_test; cbn [solve_buffers omap solve_buffer];
    try (by intros []).
  all: unfold contents at 1; rewrite lookup_insert_eq; cbn [default].
  all: rewrite contents_new_vector; cbn; intuition congruence.
Qed.

(** C9: [solveSystem] never writes the caller's [rhs]: on every path,
    success or failure, the vector at [rhs] holds after the call what it
    held before, and the only buffer [klu_solve] is given is a copy of
    it. *)
Theorem solveSystem_preserves_rhs (m : Machine) (w : W) (rhs : loc) :
  is_Some (heap m !! rhs) ->
  let o := exec (solveSystem rhs) m w in
  heap (value o).2 !! rhs = heap m !! rhs /\
  forall B, In B (solve_buffers (calls o)) -> B = contents (heap m) rhs.
Proof.
  intros Hin o. split.
  - by apply solveSystem_frame.
  - intros B. apply solveSystem_buffers.
Qed.

(** C8 (amended): the [iterations] field of the result of [solveSystem]
    is 1 when the result reports success and 0 on every failure path. *)
Theorem solveSystem_iterations (m : Machine) (w : W) (rhs : loc) :
  let r := (value (exec (solveSystem rhs) m w)).1 in
  iterations r = if success r then 1 else 0.
Proof.
  destruct m as [s h]. unfold solveSystem. unfold_method.
  destruct (isFactorized_ s); cbn [negb pbind run value fst]; [|reflexivity].
  repeat decide_test; reflexivity.
Qed.

(** What [factorizeMatrix] does once the analysis flag is set, whatever
    the length of [values]. *)
Lemma factorizeMatrix_analyzed (m : Machine) (w : W) (values : list double) :
  isAnalyzed_ (this m) = true ->
  let o := exec (factorizeMatrix values) m w in
  let s := this m in
  let s' := this (value o).2 in
  artifact_ops (calls o)
    = match numeric_ s with Some h => [Release_numeric h] | None => [] end
      ++ [Acquire_numeric (numeric_ s')] /\
  factor_inputs (calls o) = [(Ap_ s, Ai_ s, values, symbolic_ s)] /\
  (value o).1 = is_non_null (numeric_ s') /\
  isFactorized_ s' = is_non_null (numeric_ s') /\
  isAnalyzed_ s' = true /\
  symbolic_ s' = symbolic_ s /\
  (n_ s', Ap_ s', Ai_ s') = (n_ s, Ap_ s, Ai_ s) /\
  heap (value o).2 = heap m.
Proof.
  intros HA. destruct m as [s h]; cbn [this heap] in *.
  unfold factorizeMatrix. unfold_method. rewrite HA. cbn [negb].
  destruct (numeric_ s) as [old|] eqn:Hnum; unfold_method;
    match goal with
    | |- context [lib_factor ?a ?b ?c ?d ?e ?f] =>
        destruct (lib_factor a b c d e f) as [[[num|] c'] w']
    end; unfold_method; cbn; rewrite ?HA; auto 10.
Qed.

(** C4: when [factorizeMatrix] runs in state [Analyzed] or [Factorized]
    (the flags being consistent, as they are in every reachable state)
    and [klu_factor] hands back a null handle, the call returns false and
    the solver is in state [Analyzed].  The symbolic factorisation is
    left intact: the handle in the object is the one held before and the
    call releases no symbolic handle (its only artifact calls are the
    release of the numeric handle it held, if any, and the failed
    [klu_factor]).  A retry with other values reaches [klu_factor] with
    the same pattern and handle, and a following [solveSystem] reports
    the not-factorized failure. *)
Theorem factorizeMatrix_failure (m : Machine) (w : W)
    (values : list double) :
  consistent (this m) ->
  state_of (this m) <> Empty ->
  let o := exec (factorizeMatrix values) m w in
  In (Acquire_numeric None) (artifact_ops (calls o)) ->
  (value o).1 = false /\
  state_of (this (value o).2) = Analyzed /\
  symbolic_ (this (value o).2) = symbolic_ (this m) /\
  artifact_ops (calls o)
  = match numeric_ (this m) with Some h => [Release_numeric h] | None => [] end
    ++ [Acquire_numeric None] /\
  (forall h : klu_symbolic,
     ~ In (Release_symbolic h) (artifact_ops (calls o))) /\
  (forall (values' : list double) (w' : W),
     factor_inputs (calls (exec (factorizeMatrix values') (value o).2 w'))
     = [(Ap_ (this m), Ai_ (this m), values', symbolic_ (this m))]) /\
  (forall (rhs : loc) (w' : W),
     let r := (value (exec (solveSystem rhs) (value o).2 w')).1 in
     success r = false /\ errorMessage r = msg_not_factorized).
Proof.
  intros [HFA _] HnE.
  assert (isAnalyzed_ (this m) = true) as HA.
  { unfold state_of in HnE.
    destruct (isFactorized_ (this m)); [by apply HFA|].
    destruct (isAnalyzed_ (this m)); congruence. }
  intros o Hfail.
  destruct (factorizeMatrix_analyzed m w values HA)
    as (Hops & _ & Hret & HF & HA' & Hsym & Hpat & _).
  fold o in Hops, Hret, HF, HA', Hsym, Hpat.
  assert (numeric_ (this (value o).2) = None) as Hnull.
  { rewrite Hops in Hfail. apply in_app_or in Hfail as [Hin|Hin].
    - destruct (numeric_ (this m)); cbn in Hin; intuition congruence.
    - cbn in Hin. intuition congruence. }
  rewrite Hnull in Hret, HF. cbn in Hret, HF.
  assert (state_of (this (value o).2) = Analyzed) as Hst.
  { unfold state_of. by rewrite HF, HA'. }
  do 3 (split; [assumption|]).
  rewrite Hnull in Hops.
  split; [exact Hops|]. split.
  { intros h Hin. rewrite Hops in Hin.
    apply in_app_or in Hin as [Hin|Hin].
    - destruct (numeric_ (this m)); cbn in Hin; intuition congruence.
    - cbn in Hin. intuition congruence. }
  split.
  - intros values' w'.
    destruct (factorizeMatrix_analyzed (value o).2 w' values' HA')
      as (_ & -> & _).
    injection Hpat as _ -> ->. by rewrite Hsym.
  - intros rhs w' r.
    destruct (solveSystem_unfactorized (value o).2 w' rhs HF)
      as (Hs & Hmsg & _). by split.
Qed.

(** The artifact calls of an analysis, and what it leaves of the numeric
    side. *)
Lemma analyzeStructure_calls (m : Machine) (w : W) (n : Z)
    (colPointers rowIndices : list Z) :
  let o := exec (analyzeStructure n colPointers rowIndices) m w in
  let s := this m in
  let s' := this (value o).2 in
  artifact_ops (calls o)
    = match symbolic_ s with Some h => [Release_symbolic h] | None => [] end
      ++ [Acquire_symbolic (symbolic_ s')] /\
  numeric_ s' = numeric_ s /\
  isFactorized_ s' = false.
Proof.
  destruct m as [s h]; cbn [this heap] in *.
  unfold analyzeStructure. unfold_method.
  destruct (symbolic_ s) as [old|] eqn:Hsym; unfold_method;
    match goal with
    | |- context [lib_analyze ?a ?b ?c ?d ?e] =>
        destruct (lib_analyze a b c d e) as [[[new|] c'] w']
    end; unfold_method; cbn;
    repeat match goal with
    | |- context [if ?b then _ else _] => destruct b
    end; cbn; auto.
Qed.

(** What a successful analysis leaves behind. *)
Lemma analyzeStructure_success (m : Machine) (w : W) (n : Z)
    (colPointers rowIndices : list Z) :
  let o := exec (analyzeStructure n colPointers rowIndices) m w in
  let s' := this (value o).2 in
  (value o).1 = is_non_null (symbolic_ s') /\
  isAnalyzed_ s' = is_non_null (symbolic_ s') /\
  isFactorized_ s' = false /\
  (n_ s', Ap_ s', Ai_ s') = (n, colPointers, rowIndices) /\
  In (Acquire_symbolic (symbolic_ s')) (artifact_ops (calls o)).
Proof.
  destruct m as [s h]; cbn [this heap] in *.
  unfold analyzeStructure. unfold_method.
  destruct (symbolic_ s) as [old|] eqn:Hsym; unfold_method;
    match goal with
    | |- context [lib_analyze ?a ?b ?c ?d ?e] =>
        destruct (lib_analyze a b c d e) as [[[new|] c'] w']
    end; unfold_method; cbn;
    repeat match goal with
    | |- context [if ?b then _ else _] => destruct b
    end; cbn; auto 10.
Qed.

(** The artifacts around an analysis, for every state and library:
    [analyzeStructure] first releases the symbolic handle it finds and
    then acquires the new one, and it clears the factorisation flag.  It
    makes no call on the numeric handle, which stays in the object; a
    following [factorizeMatrix] releases it before acquiring a new one
    when the analysis succeeded, and makes no artifact call when it
    failed. *)
Theorem analyzeStructure_artifacts (m : Machine) (w : W) (n : Z)
    (colPointers rowIndices : list Z) :
  let o := exec (analyzeStructure n colPointers rowIndices) m w in
  let s := this m in
  let s' := this (value o).2 in
  artifact_ops (calls o)
    = match symbolic_ s with Some h => [Release_symbolic h] | None => [] end
      ++ [Acquire_symbolic (symbolic_ s')] /\
  numeric_ s' = numeric_ s /\
  isFactorized_ s' = false /\
  forall (values : list double) (w' : W),
    let o' := exec (factorizeMatrix values) (value o).2 w' in
    artifact_ops (calls o')
    = if (value o).1
      then match numeric_ s with Some h => [Release_numeric h] | None => [] end
           ++ [Acquire_numeric (numeric_ (this (value o').2))]
      else [].
Proof.
  intros o s s'.
  destruct (analyzeStructure_calls m w n colPointers rowIndices)
    as (Hops & Hnum & HF).
  destruct (analyzeStructure_success m w n colPointers rowIndices)
    as (Hret & HA & _).
  fold o in Hops, Hnum, HF, Hret, HA. fold s' in Hops, Hnum, HF, Hret, HA.
  do 3 (split; [assumption|]).
  intros values w' o'. rewrite Hret, <- HA.
  destruct (isAnalyzed_ s') eqn:HA'.
  - destruct (factorizeMatrix_analyzed (value o).2 w' values HA')
      as (Hops' & _).
    fold o' in Hops'. fold s' in Hops'. by rewrite Hops', Hnum.
  - unfold o'. by rewrite (factorizeMatrix_not_analyzed _ w' values HA').
Qed.

Lemma getStatistics_fillFactor (m : Machine) (w : W) :
  fillFactor (value (exec getStatistics m w)).1
  = match symbolic_ (this m) with
    | Some h => div (lnz h) (of_Z (Z.of_nat (length (Ai_ (this m)))))
    | None => zero
    end.
Proof.
  destruct m as [s h]; cbn [this heap] in *.
  unfold getStatistics. unfold_method.
  destruct (numeric_ s); unfold_method; reflexivity.
Qed.

(** C7 (amended): after a successful [analyzeStructure] on any pattern,
    an immediately following [getStatistics] reports as [fillFactor] the
    quotient of [lnz], as stored in the symbolic handle that the analysis
    returned, by the number of row indices of the pattern.  The wrapper
    puts no lower bound on it. *)
Theorem fillFactor_after_analysis (m : Machine) (w : W) (n : Z)
    (colPointers rowIndices : list Z) :
  let o := exec (analyzeStructure n colPointers rowIndices) m w in
  (value o).1 = true ->
  exists h : klu_symbolic,
    In (Acquire_symbolic (Some h)) (artifact_ops (calls o)) /\
    fillFactor (value (exec getStatistics (value o).2 (world o))).1
    = div (lnz h) (of_Z (Z.of_nat (length rowIndices))).
Proof.
  intros o Hok.
  destruct (analyzeStructure_success m w n colPointers rowIndices)
    as (Hret & _ & _ & Hpat & Hin).
  fold o in Hret, Hpat, Hin.
  rewrite Hok in Hret.
  destruct (symbolic_ (this (value o).2)) as [h|] eqn:Hsym; [|discriminate].
  exists h. split; [assumption|].
  rewrite getStatistics_fillFactor, Hsym.
  by injection Hpat as _ _ ->.
Qed.

(** *** Every operation keeps the flags consistent *)

Lemma run_pbind {A B : Type} (p : prog A) (f : A -> prog B) (w : W) :
  run (pbind p f) w
  = Outcome (value (run (f (value (run p w))) (world (run p w))))
            (world (run (f (value (run p w))) (world (run p w))))
            (calls (run p w)
             ++ calls (run (f (value (run p w))) (world (run p w)))).
Proof.
  revert w. induction p as [a|X e k IH]; intros w; cbn [pbind run].
  - cbn. by destruct (run (f a) w).
  - rewrite IH. cbn. reflexivity.
Qed.

Lemma exec_discard {A : Type} (c : M A) (m : Machine) (w : W) :
  (value (exec (c;; mret tt) m w)).2 = (value (exec c m w)).2.
Proof.
  unfold exec, mbind, mret, M_bind, M_ret, bind, ret.
  by rewrite run_pbind.
Qed.

Lemma solveSystem_handles (m : Machine) (w : W) (rhs : loc) :
  let s := this m in
  let s' := this (value (exec (solveSystem rhs) m w)).2 in
  isAnalyzed_ s' = isAnalyzed_ s /\ isFactorized_ s' = isFactorized_ s /\
  symbolic_ s' = symbolic_ s /\ numeric_ s' = numeric_ s.
Proof.
  destruct m as [s h]. unfold solveSystem. unfold_method.
  destruct (isFactorized_ s) eqn:HF;
    cbn [negb pbind run value snd this]; [|by rewrite HF].
  repeat decide_test; cbn; by rewrite HF.
Qed.

Lemma getStatistics_handles (m : Machine) (w : W) :
  let s := this m in
  let s' := this (value (exec getStatistics m w)).2 in
  isAnalyzed_ s' = isAnalyzed_ s /\ isFactorized_ s' = isFactorized_ s /\
  symbolic_ s' = symbolic_ s /\ numeric_ s' = numeric_ s.
Proof.
  destruct m as [s h]. unfold getStatistics. unfold_method.
  destruct (numeric_ s) eqn:Hnum; unfold_method; cbn; by rewrite ?Hnum.
Qed.

Lemma cleanup_empties (m : Machine) (w : W) :
  let o := exec cleanup m w in
  let s := this m in
  let s' := this (value o).2 in
  isAnalyzed_ s' = false /\ isFactorized_ s' = false /\
  symbolic_ s' = None /\ numeric_ s' = None /\
  artifact_ops (calls o)
    = match numeric_ s with Some h => [Release_numeric h] | None => [] end
      ++ match symbolic_ s with Some h => [Release_symbolic h] | None => [] end.
Proof.
  destruct m as [s h]. unfold cleanup. unfold_method.
  destruct (numeric_ s) eqn:Hnum; unfold_method; cbn [set_numeric_ set_common_ symbolic_];
    destruct (symbolic_ s) eqn:Hsym; unfold_method; cbn; auto.
Qed.

Lemma perform_consistent (op : operation) (m : Machine) (w : W) :
  consistent (this m) ->
  consistent (this (value (exec (perform op) m w)).2).
Proof.
  intros [HFA HAS].
  destruct op as [n Ap Ai|values|rhs| |]; cbn [perform];
    rewrite ?exec_discard.
  - pose proof (analyzeStructure_success m w n Ap Ai) as (_ & HA & HF & _).
    split; [by rewrite HF|].
    rewrite HA.
    destruct (symbolic_ (this (value _).2)); cbn; intros ?;
      [by eexists | discriminate].
  - destruct (isAnalyzed_ (this m)) eqn:HA.
    + pose proof (factorizeMatrix_analyzed m w values HA)
        as (_ & _ & _ & _ & HA' & Hsym & _).
      split; [done|]. rewrite Hsym. auto.
    + rewrite (factorizeMatrix_not_analyzed m w values HA).
      cbn. split; rewrite HA; assumption.
  - pose proof (solveSystem_handles m w rhs) as (HA & HF & Hsym & _).
    unfold consistent. cbv zeta in HA, HF, Hsym.
    rewrite HA, HF, Hsym. by split.
  - pose proof (getStatistics_handles m w) as (HA & HF & Hsym & _).
    unfold consistent. cbv zeta in HA, HF, Hsym.
    rewrite HA, HF, Hsym. by split.
  - pose proof (cleanup_empties m w) as (HA & HF & _).
    split; [by rewrite HF | by rewrite HA].
Qed.

Lemma reachable_consistent (s : UltraKLUSolver) :
  reachable s -> consistent s.
Proof.
  induction 1 as [w|s op h w _ IH].
  - cbn. split; discriminate.
  - by apply (perform_consistent op {| this := s; heap := h |} w).
Qed.

(** C10: in every state reachable from a new solver by public operations,
    a set [isFactorized_] comes with a set [isAnalyzed_] and a non-null
    symbolic handle. *)
Theorem factorized_implies_analyzed (s : UltraKLUSolver) :
  reachable s ->
  isFactorized_ s = true ->
  isAnalyzed_ s = true /\ is_Some (symbolic_ s).
Proof.
  intros [HFA HAS]%reachable_consistent HF. auto.
Qed.

End AnyLibrary.

(** ** The concrete run *)

Section ConcreteRun.

Import Triangular.

Example analyzed_state :
  (value analyzed).1 = true /\
  state_of (this (value analyzed).2) = Analyzed.
Proof. by vm_compute. Qed.

Example factorized_state :
  (value factorized).1 = true /\
  state_of (this (value factorized).2) = Factorized /\
  numeric_ (this (value factorized).2) = Some num.
Proof. by vm_compute. Qed.

(** C1 (fails in the code): [factorizeMatrix] does not compare the length
    of [values] with the stored pattern.  Here the pattern has three
    entries and [values] none: the empty vector reaches [klu_factor], and
    as KLU hands back a handle the call returns true and the solver is
    [Factorized]. *)
Theorem factorizeMatrix_short_values :
  length (Ai_ (this (value analyzed).2)) = 3%nat /\
  factor_inputs (calls factorized_short)
    = [(colPointers, rowIndices, [], Some sym)] /\
  (value factorized_short).1 = true /\
  state_of (this (value factorized_short).2) = Factorized /\
  ~ factorize_validates_length (value analyzed).2 (world analyzed) [].
Proof.
  do 4 (split; [by vm_compute|]).
  intros Hc. destruct Hc as (Hret & _); [by vm_compute|].
  vm_compute in Hret. discriminate.
Qed.

(** A second, successful [analyzeStructure] on the [Factorized] solver
    makes no call on the numeric handle [num], which is still in the
    object afterwards. *)
Lemma analyzeStructure_keeps_numeric :
  ~ analyze_releases_numeric (value factorized).2 reanalysing
      n colPointers rowIndices.
Proof.
  intros Hc. destruct (Hc num) as [_ Hkept]; [by vm_compute|].
  apply Hkept. by vm_compute.
Qed.

Example reanalysed_state :
  let o := exec (analyzeStructure n colPointers rowIndices)
                (value factorized).2 reanalysing in
  (value o).1 = true /\
  symbolic_ (this (value o).2) = Some sym' /\
  numeric_ (this (value o).2) = Some num /\
  artifact_ops (calls o) = [Release_symbolic sym; Acquire_symbolic (Some sym')].
Proof. by vm_compute. Qed.

(** C2 (fails in the code): [analyzeStructure] releases the symbolic
    handle only.  On the [Factorized] solver a second, successful
    analysis frees [sym], acquires [sym'] and clears the flag, but makes
    no call on the numeric handle [num], which stays in [numeric_]: the
    superseded handle survives the call.  A [getStatistics] that
    follows hands it to [klu_condest] together with the new symbolic
    handle.  [cleanup], on the same solver, releases both handles. *)
Theorem analyzeStructure_stale_numeric :
  let o := exec (analyzeStructure n colPointers rowIndices)
                (value factorized).2 reanalysing in
  let o' := exec getStatistics (value o).2 (world o) in
  holds (this (value factorized).2) = (Some sym, Some num) /\
  (value o).1 = true /\
  artifact_ops (calls o)
  = [Release_symbolic sym; Acquire_symbolic (Some sym')] /\
  holds (this (value o).2) = (Some sym', Some num) /\
  isFactorized_ (this (value o).2) = false /\
  condest_calls (calls o') = [(Some sym', Some num, zero)] /\
  artifact_ops (calls (exec cleanup (value factorized).2 reanalysing))
  = [Release_numeric num; Release_symbolic sym] /\
  ~ analyze_releases_numeric (value factorized).2 reanalysing
      n colPointers rowIndices.
Proof.
  do 7 (split; [by vm_compute|]).
  intros Hc. destruct (Hc num) as [_ Hkept]; [by vm_compute|].
  apply Hkept. by vm_compute.
Qed.

(** C7, as stated, fails: on the valid triangular pattern, whose symbolic
    handle carries [lnz = 2] against three nonzeros, the reported
    [fillFactor] is 2/3. *)
Lemma fillFactor_below_one :
  valid_csc n colPointers rowIndices = true /\
  ~ fill_factor_at_least_one fresh_machine (world constructed)
      n colPointers rowIndices.
Proof.
  split; [by vm_compute|].
  intros Hc. specialize (Hc eq_refl). vm_compute in Hc. discriminate.
Qed.

(** C8, as stated, fails: on a new solver [solveSystem] returns
    [iterations = 0]. *)
Lemma solveSystem_zero_iterations :
  ~ solve_reports_one_iteration fresh_machine (world constructed) rhs.
Proof. intros Hc. vm_compute in Hc. discriminate. Qed.

(** *** The general results at the concrete run *)

(** C3 at the concrete run. *)
Lemma solveSystem_not_factorized_witness :
  state_of (this (value analyzed).2) <> Factorized /\
  (let o := exec (solveSystem rhs) (value analyzed).2 (world analyzed) in
   success (value o).1 = false /\
   errorMessage (value o).1 = msg_not_factorized /\
   this (value o).2 = this (value analyzed).2 /\
   world o = world analyzed /\ calls o = []).
Proof.
  assert (state_of (this (value analyzed).2) <> Factorized) as Hst
    by (vm_compute; discriminate).
  split; [exact Hst|].
  exact (solveSystem_not_factorized
           (value analyzed).2 (world analyzed) rhs Hst).
Defined.

(** C4 at the concrete run. *)
Lemma factorizeMatrix_failure_witness :
  let o := exec (factorizeMatrix [of_Z 0; of_Z 0; of_Z 0])
                (value analyzed).2 singular in
  In (Acquire_numeric None) (artifact_ops (calls o)) /\
  (value o).1 = false /\
  state_of (this (value o).2) = Analyzed /\
  symbolic_ (this (value o).2) = Some sym /\
  artifact_ops (calls o) = [Acquire_numeric None].
Proof.
  assert (consistent (this (value analyzed).2)) as Hc.
  { split; vm_compute; [discriminate | intros _; by eexists]. }
  assert (state_of (this (value analyzed).2) <> Empty) as Hst
    by (vm_compute; discriminate).
  assert (In (Acquire_numeric None)
            (artifact_ops
               (calls (exec (factorizeMatrix [of_Z 0; of_Z 0; of_Z 0])
                            (value analyzed).2 singular)))) as Hfail
    by (vm_compute; auto).
  destruct (factorizeMatrix_failure (value analyzed).2 singular
              [of_Z 0; of_Z 0; of_Z 0] Hc Hst Hfail)
    as (Hret & Hstate & Hsym & Hops & _).
  cbv zeta. split; [exact Hfail|]. split; [exact Hret|].
  split; [exact Hstate|]. split; [exact Hsym | exact Hops].
Defined.

(** C5 at the concrete run. *)
Lemma factorizeMatrix_before_analysis_witness :
  state_of (this fresh_machine) = Empty /\
  exec (factorizeMatrix [of_Z 2; of_Z 1; of_Z 2]) fresh_machine w0
  = Outcome (false, fresh_machine) w0 [].
Proof.
  assert (state_of (this fresh_machine) = Empty) as Hst
    by (vm_compute; reflexivity).
  split; [exact Hst|].
  exact (factorizeMatrix_before_analysis fresh_machine w0
           [of_Z 2; of_Z 1; of_Z 2] Hst).
Defined.

(** C6 at the concrete run. *)
Lemma solveSystem_dimension_mismatch_witness :
  n_ (this (value factorized).2) = 2 /\
  length (contents (heap (value factorized).2) short_rhs) = 1%nat /\
  (let o := exec (solveSystem short_rhs) (value factorized).2 solving in
   success (value o).1 = false /\
   errorMessage (value o).1 = msg_dimension_mismatch /\
   this (value o).2 = this (value factorized).2 /\
   world o = solving /\ calls o = []).
Proof.
  assert (state_of (this (value factorized).2) = Factorized) as Hst
    by (vm_compute; reflexivity).
  assert (n_ (this (value factorized).2) = 2) as Hn2
    by (vm_compute; reflexivity).
  assert (int_range (n_ (this (value factorized).2))) as Hr
    by (rewrite Hn2; unfold int_range; lia).
  assert (0 <= n_ (this (value factorized).2)) as Hn
    by (rewrite Hn2; lia).
  assert (Z.of_nat (length (contents (heap (value factorized).2) short_rhs))
          <> n_ (this (value factorized).2)) as Hlen
    by (vm_compute; discriminate).
  split; [exact Hn2|]. split; [by vm_compute|].
  exact (solveSystem_dimension_mismatch
           (value factorized).2 solving short_rhs Hst Hr Hn Hlen).
Defined.

(** C7 (amended) at the concrete run. *)
Lemma fillFactor_after_analysis_witness :
  (value analyzed).1 = true /\
  exists h : klu_symbolic,
    In (Acquire_symbolic (Some h)) (artifact_ops (calls analyzed)) /\
    fillFactor (value (exec getStatistics (value analyzed).2
                            (world analyzed))).1
    = div (lnz h) (of_Z (Z.of_nat (length rowIndices))).
Proof.
  assert ((value analyzed).1 = true) as Hok by (vm_compute; reflexivity).
  split; [exact Hok|].
  exact (fillFactor_after_analysis fresh_machine (world constructed)
           n colPointers rowIndices Hok).
Defined.

(** C9 at the concrete run. *)
Lemma solveSystem_preserves_rhs_witness :
  success (value (exec (solveSystem rhs) (value factorized).2 solving)).1
  = true /\
  heap (value (exec (solveSystem rhs) (value factorized).2 solving)).2 !! rhs
  = Some [of_Z 2; of_Z 4].
Proof.
  assert (is_Some (heap (value factorized).2 !! rhs)) as Hin
    by (vm_compute; by eexists).
  split; [by vm_compute|].
  destruct (solveSystem_preserves_rhs (value factorized).2 solving rhs Hin)
    as [Hrhs _].
  rewrite Hrhs. by vm_compute.
Defined.

(** C10 at the concrete run. *)
Lemma factorized_implies_analyzed_witness :
  isFactorized_ reached_factorized = true /\
  isAnalyzed_ reached_factorized = true /\
  is_Some (symbolic_ reached_factorized).
Proof.
  assert (reachable reached_factorized) as Hreach.
  { unfold reached_factorized, reached_analyzed.
    apply reach_step, reach_step, reach_new. }
  assert (isFactorized_ reached_factorized = true) as HF
    by (vm_compute; reflexivity).
  split; [exact HF|].
  exact (factorized_implies_analyzed reached_factorized Hreach HF).
Defined.

End ConcreteRun.


(** ** The whole class, for every library *)

Section WholeClass.

Context {W : Type} `{KluLibrary W}.

Lemma exec_bind {A B : Type} (c : M A) (f : A -> M B) (m : Machine) (w : W) :
  exec (c ≫= f) m w
  = Outcome
      (value (exec (f (value (exec c m w)).1) (value (exec c m w)).2
                   (world (exec c m w))))
      (world (exec (f (value (exec c m w)).1) (value (exec c m w)).2
                   (world (exec c m w))))
      (calls (exec c m w)
       ++ calls (exec (f (value (exec c m w)).1) (value (exec c m w)).2
                      (world (exec c m w)))).
Proof.
  unfold exec, mbind, M_bind, bind. by rewrite run_pbind.
Qed.

Lemma exec_discard_calls {A : Type} (c : M A) (m : Machine) (w : W) :
  calls (exec (c;; mret tt) m w) = calls (exec c m w).
Proof.
  rewrite exec_bind. cbn. by rewrite app_nil_r.
Qed.

Lemma artifact_ops_app (t1 t2 : list event) :
  artifact_ops (t1 ++ t2) = artifact_ops t1 ++ artifact_ops t2.
Proof. apply omap_app. Qed.

Lemma replay_app (st : held) (ops1 ops2 : list artifact_op) :
  replay st (ops1 ++ ops2)
  = match replay st ops1 with
    | Some st' => replay st' ops2
    | None => None
    end.
Proof.
  revert st. induction ops1 as [|op ops1 IH]; intros st; cbn; [done|].
  destruct (apply_op st op); [apply IH | done].
Qed.

(** [solveSystem] and [getStatistics] make no call on the artifacts. *)
Lemma solveSystem_no_artifact (m : Machine) (w : W) (rhs : loc) :
  artifact_ops (calls (exec (solveSystem rhs) m w)) = [].
Proof.
  destruct m as [s h]. unfold solveSystem. unfold_method.
  destruct (isFactorized_ s); cbn [negb pbind run calls]; [|done].
  repeat decide_test; reflexivity.
Qed.

Lemma getStatistics_no_artifact (m : Machine) (w : W) :
  artifact_ops (calls (exec getStatistics m w)) = [].
Proof.
  destruct m as [s h]. unfold getStatistics. unfold_method.
  destruct (numeric_ s); unfold_method; reflexivity.
Qed.

Lemma cleanup_replay (m : Machine) (w : W) :
  replay (holds (this m)) (artifact_ops (calls (exec cleanup m w)))
  = Some (None, None) /\
  holds (this (value (exec cleanup m w)).2) = (None, None).
Proof.
  destruct (cleanup_empties m w) as (_ & _ & Hsym & Hnum & ->).
  unfold holds. rewrite Hsym, Hnum. split; [|done].
  destruct (numeric_ (this m)), (symbolic_ (this m)); cbn;
    repeat case_decide; done.
Qed.

Lemma perform_replay (op : operation) (m : Machine) (w : W) :
  replay (holds (this m)) (artifact_ops (calls (exec (perform op) m w)))
  = Some (holds (this (value (exec (perform op) m w)).2)).
Proof.
  destruct op as [n Ap Ai|values|rhs| |]; cbn [perform];
    rewrite ?exec_discard, ?exec_discard_calls.
  - destruct (analyzeStructure_calls m w n Ap Ai) as (-> & Hnum & _).
    unfold holds. rewrite Hnum.
    destruct (symbolic_ (this m)); cbn; repeat case_decide; done.
  - destruct (isAnalyzed_ (this m)) eqn:HA.
    + destruct (factorizeMatrix_analyzed m w values HA)
        as (-> & _ & _ & _ & _ & Hsym & _).
      unfold holds. rewrite Hsym.
      destruct (numeric_ (this m)); cbn; repeat case_decide; done.
    + by rewrite (factorizeMatrix_not_analyzed m w values HA).
  - rewrite solveSystem_no_artifact.
    destruct (solveSystem_handles m w rhs) as (_ & _ & Hsym & Hnum).
    unfold holds. cbn. by rewrite Hsym, Hnum.
  - rewrite getStatistics_no_artifact.
    destruct (getStatistics_handles m w) as (_ & _ & Hsym & Hnum).
    unfold holds. cbn. by rewrite Hsym, Hnum.
  - destruct (cleanup_replay m w) as [-> ->]. done.
Qed.

Lemma perform_all_replay (ops : list operation) (m : Machine) (w : W) :
  replay (holds (this m)) (artifact_ops (calls (exec (perform_all ops) m w)))
  = Some (holds (this (value (exec (perform_all ops) m w)).2)).
Proof.
  revert m w. induction ops as [|op ops IH]; intros m w; cbn [perform_all].
  - reflexivity.
  - rewrite exec_bind. cbn [calls value].
    rewrite artifact_ops_app, replay_app, perform_replay. apply IH.
Qed.

(** X1: over any sequence of public operations, the calls on the
    artifacts replay without fault from the handles the object holds
    (every release is of the handle held, every acquisition into an
    empty slot) and end in the handles the object holds afterwards. *)
Theorem perform_all_ownership (ops : list operation) (m : Machine) (w : W) :
  replay (holds (this m)) (artifact_ops (calls (exec (perform_all ops) m w)))
  = Some (holds (this (value (exec (perform_all ops) m w)).2)).
Proof. exact (perform_all_replay ops m w). Qed.

(** X2: over the whole life of an object (construction, any operations,
    destruction) every handle that KLU hands out is released exactly
    once and none is released that is not held: the calls replay from no
    handle to no handle. *)
Theorem lifetime_releases_all (ops : list operation)
    (h : gmap loc (list double)) (w : W) :
  replay (None, None) (artifact_ops (calls (run (lifetime ops h) w)))
  = Some (None, None).
Proof.
  unfold lifetime. rewrite run_pbind. cbn [calls].
  rewrite artifact_ops_app, replay_app.
  change (artifact_ops (calls (run UltraKLUSolver_new w)))
    with (@nil artifact_op).
  cbn [replay].
  set (m := {| this := value (run UltraKLUSolver_new w); heap := h |}).
  set (w' := world (run UltraKLUSolver_new w)).
  change (run ((perform_all ops;; destructor) m) w')
    with (exec (perform_all ops;; destructor) m w').
  rewrite exec_bind. cbn [calls].
  rewrite artifact_ops_app, replay_app.
  pose proof (perform_all_replay ops m w') as Hown.
  change (holds (this m))
    with (@pair (option klu_symbolic) (option klu_numeric) None None) in Hown.
  rewrite Hown. apply cleanup_replay.
Qed.

(** *** States reached *)

Lemma perform_flags_match (op : operation) (m : Machine) (w : W) :
  flags_match_handles (this m) ->
  flags_match_handles (this (value (exec (perform op) m w)).2).
Proof.
  intros [HA HF]. unfold flags_match_handles.
  destruct op as [n Ap Ai|values|rhs| |]; cbn [perform];
    rewrite ?exec_discard.
  - destruct (analyzeStructure_success m w n Ap Ai) as (_ & -> & -> & _).
    by split.
  - destruct (isAnalyzed_ (this m)) eqn:HA'.
    + destruct (factorizeMatrix_analyzed m w values HA')
        as (_ & _ & _ & -> & -> & -> & _).
      split; [done|].
      destruct (numeric_ (this (value _).2)); cbn; [by eexists|done].
    + rewrite (factorizeMatrix_not_analyzed m w values HA'). cbn.
      split; [by rewrite HA'|done].
  - destruct (solveSystem_handles m w rhs) as (-> & -> & -> & ->). by split.
  - destruct (getStatistics_handles m w) as (-> & -> & -> & ->). by split.
  - destruct (cleanup_empties m w) as (-> & -> & -> & _). by split.
Qed.

Lemma reachable_flags (s : UltraKLUSolver) :
  reachable s -> flags_match_handles s.
Proof.
  induction 1 as [w|s op h w _ IH].
  - cbn. by split.
  - by apply (perform_flags_match op {| this := s; heap := h |} w).
Qed.

(** X3: in every state reachable from a new solver, [isAnalyzed_] is set
    exactly when the symbolic handle is non-null, and a set
    [isFactorized_] comes with a non-null numeric handle. *)
Theorem reachable_flags_match_handles (s : UltraKLUSolver) :
  reachable s -> flags_match_handles s.
Proof. exact (reachable_flags s). Qed.

(** *** [cleanup] *)

Lemma cleanup_effect (m : Machine) (w : W) :
  let o := exec cleanup m w in
  let s := this m in
  let s' := this (value o).2 in
  state_of s' = Empty /\
  holds s' = (None, None) /\
  pattern_of s' = pattern_of s /\
  heap (value o).2 = heap m /\
  routines (calls o)
  = match numeric_ s with Some _ => [R_klu_free_numeric] | None => [] end
    ++ match symbolic_ s with Some _ => [R_klu_free_symbolic] | None => [] end
  /\
  artifact_ops (calls o)
  = match numeric_ s with Some h => [Release_numeric h] | None => [] end
    ++ match symbolic_ s with Some h => [Release_symbolic h] | None => [] end.
Proof.
  destruct m as [s h]. unfold cleanup. unfold_method.
  destruct (numeric_ s) eqn:Hnum; unfold_method;
    cbn [set_numeric_ set_common_ symbolic_];
    destruct (symbolic_ s) eqn:Hsym; unfold_method;
    unfold holds, pattern_of; cbn; rewrite ?Hnum, ?Hsym; auto 10.
Qed.

(** X4: [cleanup], from any state, leaves the solver [Empty] with both
    handles null.  Its calls are [klu_free_numeric] on the numeric
    handle the object held and then [klu_free_symbolic] on the symbolic
    handle it held (each only if one was held), and no other call; the
    stored pattern and the memory are untouched. *)
Theorem cleanup_resets (m : Machine) (w : W) :
  let o := exec cleanup m w in
  let s := this m in
  let s' := this (value o).2 in
  state_of s' = Empty /\
  holds s' = (None, None) /\
  pattern_of s' = pattern_of s /\
  heap (value o).2 = heap m /\
  routines (calls o)
  = match numeric_ s with Some _ => [R_klu_free_numeric] | None => [] end
    ++ match symbolic_ s with Some _ => [R_klu_free_symbolic] | None => [] end
  /\
  artifact_ops (calls o)
  = match numeric_ s with Some h => [Release_numeric h] | None => [] end
    ++ match symbolic_ s with Some h => [Release_symbolic h] | None => [] end.
Proof. exact (cleanup_effect m w). Qed.

Lemma cleanup_of_empty (m : Machine) (w : W) :
  holds (this m) = (None, None) ->
  isAnalyzed_ (this m) = false ->
  isFactorized_ (this m) = false ->
  exec cleanup m w = Outcome (tt, m) w [].
Proof.
  destruct m as [[sym num c n Ap Ai a f tf ts] h]. unfold holds. cbn.
  intros [= -> ->] -> ->. reflexivity.
Qed.

(** X5: [cleanup] is idempotent: a second [cleanup] makes no call and
    leaves the machine and the world as they are. *)
Theorem cleanup_twice (m : Machine) (w w' : W) :
  exec cleanup (value (exec cleanup m w)).2 w'
  = Outcome (tt, (value (exec cleanup m w)).2) w' [].
Proof.
  destruct (cleanup_empties m w) as (HA & HF & Hsym & Hnum & _).
  apply cleanup_of_empty; [|assumption..].
  unfold holds. by rewrite Hsym, Hnum.
Qed.

(** *** [analyzeStructure] *)

(** X6: [analyzeStructure] hands [klu_analyze] its three arguments as
    given, once, with no check of its own, and stores in [symbolic_] the
    handle that this call returned; it returns true exactly when that
    handle is non-null and then leaves the solver [Analyzed], otherwise
    [Empty], whatever the state before.  In both cases the arguments
    are now the stored pattern. *)
Theorem analyzeStructure_outcome (m : Machine) (w : W) (n : Z)
    (colPointers rowIndices : list Z) :
  let o := exec (analyzeStructure n colPointers rowIndices) m w in
  let s' := this (value o).2 in
  analyze_inputs (calls o) = [(n, colPointers, rowIndices)] /\
  analyze_results (calls o) = [symbolic_ s'] /\
  (value o).1 = is_non_null (symbolic_ s') /\
  state_of s' = (if (value o).1 then Analyzed else Empty) /\
  pattern_of s' = (n, colPointers, rowIndices) /\
  heap (value o).2 = heap m.
Proof.
  destruct m as [s h]; cbn [this heap] in *.
  unfold analyzeStructure. unfold_method.
  destruct (symbolic_ s) as [old|] eqn:Hsym; unfold_method;
    match goal with
    | |- context [lib_analyze ?a ?b ?c ?d ?e] =>
        destruct (lib_analyze a b c d e) as [[[new|] c'] w']
    end; unfold_method; cbn;
    try destruct (status c' =? KLU_OK);
    unfold pattern_of, state_of; cbn; auto 10.
Qed.

(** X7: the calls of [analyzeStructure], in order: the release of the
    old symbolic handle if one is held, the clock, [klu_analyze], the
    clock, and then four lines of output exactly when the analysis
    succeeded and KLU's status is [KLU_OK]. *)
Theorem analyzeStructure_routines (m : Machine) (w : W) (n : Z)
    (colPointers rowIndices : list Z) :
  let o := exec (analyzeStructure n colPointers rowIndices) m w in
  let s' := this (value o).2 in
  routines (calls o)
  = match symbolic_ (this m) with
    | Some _ => [R_klu_free_symbolic]
    | None => []
    end
    ++ [R_now; R_klu_analyze; R_now]
    ++ (if (value o).1 && (status (common_ s') =? KLU_OK)
        then [R_printf; R_printf; R_printf; R_printf]
        else []).
Proof.
  destruct m as [s h]; cbn [this heap] in *.
  unfold analyzeStructure. unfold_method.
  destruct (symbolic_ s) as [old|] eqn:Hsym; unfold_method;
    match goal with
    | |- context [lib_analyze ?a ?b ?c ?d ?e] =>
        destruct (lib_analyze a b c d e) as [[[new|] c'] w']
    end; unfold_method; cbn;
    try (destruct (status c' =? KLU_OK) eqn:Hst; cbn; rewrite ?Hst);
    reflexivity.
Qed.

(** *** [factorizeMatrix] *)

Lemma factorizeMatrix_effect (m : Machine) (w : W) (values : list double) :
  isAnalyzed_ (this m) = true ->
  let o := exec (factorizeMatrix values) m w in
  let s := this m in
  let s' := this (value o).2 in
  routines (calls o)
  = match numeric_ s with Some _ => [R_klu_free_numeric] | None => [] end
    ++ [R_now; R_klu_factor; R_now]
    ++ (if (value o).1 then [] else [R_printf]) /\
  artifact_ops (calls o)
  = match numeric_ s with Some h => [Release_numeric h] | None => [] end
    ++ [Acquire_numeric (numeric_ s')] /\
  factor_results (calls o) = [numeric_ s'] /\
  (value o).1 = is_non_null (numeric_ s') /\
  state_of s' = (if (value o).1 then Factorized else Analyzed) /\
  pattern_of s' = pattern_of s /\
  symbolic_ s' = symbolic_ s.
Proof.
  intros HA. destruct m as [s h]; cbn [this heap] in *.
  unfold factorizeMatrix. unfold_method. rewrite HA. cbn [negb].
  destruct (numeric_ s) as [old|] eqn:Hnum; unfold_method;
    match goal with
    | |- context [lib_factor ?a ?b ?c ?d ?e ?f] =>
        destruct (lib_factor a b c d e f) as [[[num|] c'] w']
    end; unfold_method; unfold state_of, pattern_of; cbn; rewrite ?HA;
    auto 10.
Qed.

(** X8: once the analysis flag is set, [factorizeMatrix] releases the
    numeric handle the object held, if any, reads the clock around one
    call of [klu_factor] and prints one line exactly when it fails; it
    never calls [klu_analyze].  It stores in [numeric_] the handle that
    this [klu_factor] returned, returns true exactly when that handle is
    non-null and then leaves the solver [Factorized], otherwise
    [Analyzed]; the pattern and the symbolic handle stay. *)
Theorem factorizeMatrix_outcome (m : Machine) (w : W) (values : list double) :
  isAnalyzed_ (this m) = true ->
  let o := exec (factorizeMatrix values) m w in
  let s := this m in
  let s' := this (value o).2 in
  routines (calls o)
  = match numeric_ s with Some _ => [R_klu_free_numeric] | None => [] end
    ++ [R_now; R_klu_factor; R_now]
    ++ (if (value o).1 then [] else [R_printf]) /\
  artifact_ops (calls o)
  = match numeric_ s with Some h => [Release_numeric h] | None => [] end
    ++ [Acquire_numeric (numeric_ s')] /\
  factor_results (calls o) = [numeric_ s'] /\
  (value o).1 = is_non_null (numeric_ s') /\
  state_of s' = (if (value o).1 then Factorized else Analyzed) /\
  pattern_of s' = pattern_of s /\
  symbolic_ s' = symbolic_ s.
Proof. exact (factorizeMatrix_effect m w values). Qed.

(** *** [solveSystem] *)

Lemma contents_insert_eq (h : gmap loc (list double)) (p : loc)
    (v : list double) :
  contents (<[p := v]> h) p = v.
Proof. unfold contents. by rewrite lookup_insert_eq. Qed.

Lemma solveSystem_size_guard (m : Machine) (w : W) (rhs : loc) :
  isFactorized_ (this m) = true ->
  Z.of_nat (length (contents (heap m) rhs)) <> to_size_t (n_ (this m)) ->
  let o := exec (solveSystem rhs) m w in
  success (value o).1 = false /\
  errorMessage (value o).1 = msg_dimension_mismatch /\
  this (value o).2 = this m /\
  world o = w /\ calls o = [].
Proof.
  intros HF Hlen. destruct m as [s h]; cbn [this heap] in *.
  unfold solveSystem. unfold_method. rewrite HF. cbn [negb].
  decide_test; [auto|].
  rewrite contents_new_vector in *.
  apply negb_false_iff, Z.eqb_eq in Heqb. contradiction.
Qed.

Lemma solveSystem_solve_call (m : Machine) (w : W) (rhs : loc) :
  state_of (this m) = Factorized ->
  int_range (n_ (this m)) ->
  Z.of_nat (length (contents (heap m) rhs)) = n_ (this m) ->
  let o := exec (solveSystem rhs) m w in
  let r := (value o).1 in
  exists c : solve_call,
    solve_calls (calls o) = [c] /\
    solve_symbolic c = symbolic_ (this m) /\
    solve_numeric c = numeric_ (this m) /\
    solve_ldim c = n_ (this m) /\
    solve_nrhs c = 1 /\
    solve_in c = contents (heap m) rhs /\
    success r = (solve_status c =? 1) /\
    contents (heap (value o).2) (solution r) = solve_out c.
Proof.
  intros HF Hr Hlen. destruct m as [s h]; cbn [this heap] in *.
  assert (isFactorized_ s = true) as HF'.
  { unfold state_of in HF. destruct (isFactorized_ s), (isAnalyzed_ s); congruence. }
  assert (to_size_t (n_ s) = n_ s) as Hcast.
  { apply to_size_t_nonneg; [lia | assumption]. }
  unfold solveSystem. unfold_method. rewrite HF'. cbn [negb].
  decide_test.
  { rewrite Hcast, contents_new_vector, Hlen, Z.eqb_refl in *. discriminate. }
  clear Heqb.
  match goal with
  | |- context [lib_solve ?a ?b ?c ?d ?e ?f ?g] =>
      destruct (lib_solve a b c d e f g) as [[[st B'] c'] w'] eqn:Hsolve
  end.
  cbn [fst snd] in *.
  destruct (st =? 1) eqn:Hst; cbn [negb]; unfold_method;
    repeat decide_test;
    (eexists; cbn [solve_calls omap solve_call_of calls];
     rewrite ?Hsolve; cbn;
     split; [reflexivity|]; cbn;
     rewrite ?contents_insert_eq, ?contents_new_vector, ?Hst; auto 10).
Qed.

(** X9: in state [Factorized] with an [rhs] of length [n_], [solveSystem]
    calls [klu_solve] once, with the two handles of the object, the
    order [n_], one right-hand side and a buffer holding what [rhs]
    holds; [success] is set exactly when the status that comes back is
    1, and the result's [solution] is what [klu_solve] left in the
    buffer, on success and on failure. *)
Theorem solveSystem_call (m : Machine) (w : W) (rhs : loc) :
  state_of (this m) = Factorized ->
  int_range (n_ (this m)) ->
  Z.of_nat (length (contents (heap m) rhs)) = n_ (this m) ->
  let o := exec (solveSystem rhs) m w in
  let r := (value o).1 in
  exists c : solve_call,
    solve_calls (calls o) = [c] /\
    solve_symbolic c = symbolic_ (this m) /\
    solve_numeric c = numeric_ (this m) /\
    solve_ldim c = n_ (this m) /\
    solve_nrhs c = 1 /\
    solve_in c = contents (heap m) rhs /\
    success r = (solve_status c =? 1) /\
    contents (heap (value o).2) (solution r) = solve_out c.
Proof. exact (solveSystem_solve_call m w rhs). Qed.

(** Every path of [solveSystem], one goal each. *)
Ltac solveSystem_paths s :=
  unfold solveSystem; unfold_method;
  destruct (isFactorized_ s) eqn:?;
  cbn [negb pbind run value world calls fst snd this heap];
  [repeat decide_test|].

(** X10: what the result of [solveSystem] reports.  On success the
    message is empty and [conditionNumber] is the estimate of the one
    call of [klu_condest], made with the two handles of the object.  On
    failure [klu_condest] is not called, [conditionNumber] is not set,
    and the message names the failure: not factorized, dimension
    mismatch when [klu_solve] was not reached, failed solve when it
    was. *)
Theorem solveSystem_report (m : Machine) (w : W) (rhs : loc) :
  let o := exec (solveSystem rhs) m w in
  let r := (value o).1 in
  if success r
  then errorMessage r = EmptyString /\
       exists d : double,
         condest_calls (calls o)
         = [(symbolic_ (this m), numeric_ (this m), d)] /\
         conditionNumber r = Some d
  else condest_calls (calls o) = [] /\
       conditionNumber r = None /\
       errorMessage r
       = if negb (isFactorized_ (this m)) then msg_not_factorized
         else match solve_calls (calls o) with
              | [] => msg_dimension_mismatch
              | _ => msg_solve_failed
              end.
Proof.
  destruct m as [s h]; cbn [this heap]. solveSystem_paths s;
    cbn; rewrite ?Heqb; cbn; try (split; [reflexivity|]); eauto.
Qed.

(** X11: [solveSystem] leaves the solver as usable as it found it, on
    every path: the stored pattern, both handles, both flags and
    [lastFactorTime_] are unchanged, so a solve can follow a solve
    without a new factorisation. *)
Theorem solveSystem_keeps_factorization (m : Machine) (w : W) (rhs : loc) :
  let s := this m in
  let s' := this (value (exec (solveSystem rhs) m w)).2 in
  pattern_of s' = pattern_of s /\
  holds s' = holds s /\
  isAnalyzed_ s' = isAnalyzed_ s /\
  isFactorized_ s' = isFactorized_ s /\
  lastFactorTime_ s' = lastFactorTime_ s.
Proof.
  destruct m as [s h]; cbn [this heap]. solveSystem_paths s;
    unfold pattern_of, holds; cbn; rewrite ?Heqb; auto 10.
Qed.

(** X12: the calls of [solveSystem], in order: none when it fails before
    [klu_solve]; the clock, [klu_solve], the clock when the solve fails;
    these and [klu_condest] when it succeeds.  It prints nothing on any
    path: the residual warning is never issued. *)
Theorem solveSystem_routines (m : Machine) (w : W) (rhs : loc) :
  let o := exec (solveSystem rhs) m w in
  routines (calls o)
  = if success (value o).1
    then [R_now; R_klu_solve; R_now; R_klu_condest]
    else match solve_calls (calls o) with
         | [] => []
         | _ => [R_now; R_klu_solve; R_now]
         end.
Proof.
  destruct m as [s h]; cbn [this heap]. solveSystem_paths s;
    try reflexivity.
  all: exfalso; vm_compute in Heqb1 || vm_compute in Heqb0; discriminate.
Qed.

(** X13: the times in the result of [solveSystem]: [factorizationTime]
    is [lastFactorTime_] as found, on every path; when [klu_solve] is
    reached, [solveTime] and the new [lastSolveTime_] are the whole
    microseconds between the two clock readings (the tick difference,
    truncated), divided by 1000.0, and otherwise [solveTime] is not set
    and [lastSolveTime_] stays. *)
Theorem solveSystem_times (m : Machine) (w : W) (rhs : loc) :
  let o := exec (solveSystem rhs) m w in
  let r := (value o).1 in
  let s := this m in
  let s' := this (value o).2 in
  factorizationTime r = lastFactorTime_ s /\
  match clock_readings (calls o) with
  | [t1; t2] =>
      solveTime r
      = Some (div (of_Z (Z.quot (t2 - t1) 1000)) thousand) /\
      lastSolveTime_ s'
      = Some (div (of_Z (Z.quot (t2 - t1) 1000)) thousand)
  | _ => solveTime r = None /\ lastSolveTime_ s' = lastSolveTime_ s
  end.
Proof.
  destruct m as [s h]; cbn [this heap]. solveSystem_paths s; cbn; auto.
Qed.

(** X14: the memory around [solveSystem]: the result's [solution] is a
    vector that did not exist before the call, and every other vector
    holds what it held. *)
Theorem solveSystem_result_vector (m : Machine) (w : W) (rhs : loc) :
  let o := exec (solveSystem rhs) m w in
  let r := (value o).1 in
  heap m !! solution r = None /\
  is_Some (heap (value o).2 !! solution r) /\
  forall p : loc, p <> solution r -> heap (value o).2 !! p = heap m !! p.
Proof.
  destruct m as [s h]; cbn [this heap].
  pose proof (proj1 (not_elem_of_dom h _) (is_fresh (dom h))) as Hfresh.
  solveSystem_paths s; cbn;
    (split; [exact Hfresh|]); (split; [rewrite lookup_insert_eq; by eexists|]);
    intros p Hp; by rewrite !lookup_insert_ne.
Qed.

(** X15: with a negative order [n_], [static_cast<size_t>(n_)] is at
    least 2^31: in state [Factorized], [solveSystem] rejects every [rhs]
    of fewer than 2^31 elements as a dimension mismatch, without calling
    [klu_solve]. *)
Theorem solveSystem_negative_order (m : Machine) (w : W) (rhs : loc) :
  state_of (this m) = Factorized ->
  int_range (n_ (this m)) ->
  n_ (this m) < 0 ->
  Z.of_nat (length (contents (heap m) rhs)) < 2 ^ 31 ->
  let o := exec (solveSystem rhs) m w in
  success (value o).1 = false /\
  errorMessage (value o).1 = msg_dimension_mismatch /\
  this (value o).2 = this m /\
  world o = w /\ calls o = [].
Proof.
  intros HF [Hlo Hhi] Hneg Hlen.
  apply solveSystem_size_guard.
  - unfold state_of in HF.
    destruct (isFactorized_ (this m)), (isAnalyzed_ (this m)); congruence.
  - unfold to_size_t.
    rewrite <- (Z.mod_add _ 1) by lia.
    rewrite Z.mod_small by lia. lia.
Qed.

(** *** [getStatistics] *)

Lemma getStatistics_values (m : Machine) (w : W) :
  let o := exec getStatistics m w in
  let r := (value o).1 in
  let s := this m in
  rows r = n_ s /\ cols r = n_ s /\
  nnz r = to_int (Z.of_nat (length (Ai_ s))) /\
  isSymmetric r = false /\
  fillFactor r
  = match symbolic_ s with
    | Some h => div (lnz h) (of_Z (Z.of_nat (length (Ai_ s))))
    | None => zero
    end /\
  match numeric_ s with
  | Some _ =>
      routines (calls o) = [R_klu_condest] /\
      condest_calls (calls o)
      = [(symbolic_ s, numeric_ s, conditionEstimate r)]
  | None => calls o = [] /\ conditionEstimate r = zero
  end.
Proof.
  destruct m as [s h]. unfold getStatistics. unfold_method.
  destruct (numeric_ s) eqn:Hnum; unfold_method; cbn; auto 10.
Qed.

(** X16: what [getStatistics] reports: [rows] and [cols] are [n_], [nnz]
    is the number of stored row indices converted to [int],
    [isSymmetric] is false; [fillFactor] is 0.0 without a symbolic
    handle; [conditionEstimate] is 0.0 without a numeric handle, with
    no call made, and otherwise the answer of one call of [klu_condest]
    with the two handles of the object, whether or not the solver is
    [Factorized]. *)
Theorem getStatistics_report (m : Machine) (w : W) :
  let o := exec getStatistics m w in
  let r := (value o).1 in
  let s := this m in
  rows r = n_ s /\ cols r = n_ s /\
  nnz r = to_int (Z.of_nat (length (Ai_ s))) /\
  isSymmetric r = false /\
  fillFactor r
  = match symbolic_ s with
    | Some h => div (lnz h) (of_Z (Z.of_nat (length (Ai_ s))))
    | None => zero
    end /\
  match numeric_ s with
  | Some _ =>
      routines (calls o) = [R_klu_condest] /\
      condest_calls (calls o)
      = [(symbolic_ s, numeric_ s, conditionEstimate r)]
  | None => calls o = [] /\ conditionEstimate r = zero
  end.
Proof. exact (getStatistics_values m w). Qed.

(** X17: [getStatistics] changes nothing a caller can observe through
    the other operations: the pattern, the handles, the flags, the two
    recorded times and the memory are as before (only [common_], which
    [klu_condest] may write, can differ). *)
Theorem getStatistics_frame (m : Machine) (w : W) :
  let o := exec getStatistics m w in
  let s := this m in
  let s' := this (value o).2 in
  pattern_of s' = pattern_of s /\
  holds s' = holds s /\
  isAnalyzed_ s' = isAnalyzed_ s /\
  isFactorized_ s' = isFactorized_ s /\
  lastFactorTime_ s' = lastFactorTime_ s /\
  lastSolveTime_ s' = lastSolveTime_ s /\
  heap (value o).2 = heap m.
Proof.
  destruct m as [s h]. unfold getStatistics. unfold_method.
  destruct (numeric_ s) eqn:Hnum; unfold_method;
    unfold pattern_of, holds; cbn; rewrite ?Hnum; auto 10.
Qed.

(** *** Operations in sequence *)

(** X18: a numeric handle outlives a new analysis.  After
    [analyzeStructure] on a solver that holds the numeric handle [h],
    the solver is not [Factorized], yet [getStatistics] calls
    [klu_condest] with [h] and the symbolic handle of the new analysis
    (null if that analysis failed). *)
Theorem getStatistics_after_reanalysis (m : Machine) (w : W) (n : Z)
    (colPointers rowIndices : list Z) (h : klu_numeric) :
  numeric_ (this m) = Some h ->
  let o := exec (analyzeStructure n colPointers rowIndices) m w in
  let s' := this (value o).2 in
  let o' := exec getStatistics (value o).2 (world o) in
  state_of s' <> Factorized /\
  In (Acquire_symbolic (symbolic_ s')) (artifact_ops (calls o)) /\
  condest_calls (calls o')
  = [(symbolic_ s', Some h, conditionEstimate (value o').1)].
Proof.
  intros Hnum. cbv zeta.
  destruct (analyzeStructure_calls m w n colPointers rowIndices)
    as (_ & Hkept & HF).
  destruct (analyzeStructure_success m w n colPointers rowIndices)
    as (_ & _ & _ & _ & Hin).
  cbv zeta in Hkept, HF, Hin.
  split; [by apply state_of_not_Factorized|]. split; [assumption|].
  destruct (getStatistics_values
              (value (exec (analyzeStructure n colPointers rowIndices) m w)).2
              (world (exec (analyzeStructure n colPointers rowIndices) m w)))
    as (_ & _ & _ & _ & _ & Hcond).
  rewrite Hkept, Hnum in Hcond. destruct Hcond as [_ Hcond].
  by rewrite Hcond.
Qed.

(** X19: a failed analysis disables the solver, whatever it held before:
    when [analyzeStructure] returns false, a following [factorizeMatrix]
    returns false and a following [solveSystem] reports not factorized,
    each without any call and without a change to the object. *)
Theorem failed_analysis_disables (m : Machine) (w : W) (n : Z)
    (colPointers rowIndices : list Z) :
  let o := exec (analyzeStructure n colPointers rowIndices) m w in
  (value o).1 = false ->
  (forall (values : list double) (w' : W),
     exec (factorizeMatrix values) (value o).2 w'
     = Outcome (false, (value o).2) w' []) /\
  (forall (rhs : loc) (w' : W),
     let o' := exec (solveSystem rhs) (value o).2 w' in
     success (value o').1 = false /\
     errorMessage (value o').1 = msg_not_factorized /\
     this (value o').2 = this (value o).2 /\
     calls o' = []).
Proof.
  intros o Hret.
  destruct (analyzeStructure_success m w n colPointers rowIndices)
    as (Hret' & HA & HF & _).
  fold o in Hret', HA, HF. rewrite <- Hret', Hret in HA.
  split.
  - intros values w'. by apply factorizeMatrix_not_analyzed.
  - intros rhs w' o'.
    destruct (solveSystem_unfactorized (value o).2 w' rhs HF)
      as (Hs & Hmsg & Hthis & _ & Hcalls).
    auto.
Qed.

(** X20: a successful factorisation enables the solve with its own
    handle: when [factorizeMatrix] returns true, the solver is
    [Factorized] and [solveSystem], for an [rhs] of length [n_], hands
    [klu_solve] the numeric handle that this [klu_factor] returned and
    the symbolic handle of the analysis. *)
Theorem solve_after_factorization (m : Machine) (w w' : W)
    (values : list double) (rhs : loc) :
  isAnalyzed_ (this m) = true ->
  int_range (n_ (this m)) ->
  Z.of_nat (length (contents (heap m) rhs)) = n_ (this m) ->
  let o := exec (factorizeMatrix values) m w in
  (value o).1 = true ->
  let o' := exec (solveSystem rhs) (value o).2 w' in
  exists (num : klu_numeric) (c : solve_call),
    In (Acquire_numeric (Some num)) (artifact_ops (calls o)) /\
    solve_calls (calls o') = [c] /\
    solve_numeric c = Some num /\
    solve_symbolic c = symbolic_ (this m) /\
    solve_in c = contents (heap m) rhs.
Proof.
  intros HA Hr Hlen o Hret o'.
  destruct (factorizeMatrix_analyzed m w values HA)
    as (Hops & _ & Hret' & _ & _ & Hsym & Hpat & Hheap).
  destruct (factorizeMatrix_effect m w values HA)
    as (_ & _ & _ & _ & Hst & _).
  fold o in Hops, Hret', Hsym, Hpat, Hheap, Hst.
  rewrite Hret in Hret', Hst.
  destruct (numeric_ (this (value o).2)) as [num|] eqn:Hnum; [|discriminate].
  injection Hpat as Hn _ _.
  destruct (solveSystem_solve_call (value o).2 w' rhs Hst)
    as (c & Hc & Hcs & Hcn & _ & _ & Hin & _).
  { by rewrite Hn. }
  { by rewrite Hheap, Hn. }
  fold o' in Hc.
  exists num, c. split.
  { rewrite Hops. apply in_or_app. right. by left. }
  split; [assumption|]. split; [by rewrite Hcn|].
  split; [by rewrite Hcs, Hsym | by rewrite Hin, Hheap].
Qed.

(** X21: [cleanup] does not forget the pattern: a [getStatistics] after
    it still reports the order and the nonzero count of the last
    analysis, with [fillFactor] and [conditionEstimate] 0.0, and makes
    no call. *)
Theorem getStatistics_after_cleanup (m : Machine) (w w' : W) :
  let o := exec getStatistics (value (exec cleanup m w)).2 w' in
  let r := (value o).1 in
  rows r = n_ (this m) /\ cols r = n_ (this m) /\
  nnz r = to_int (Z.of_nat (length (Ai_ (this m)))) /\
  fillFactor r = zero /\ conditionEstimate r = zero /\
  calls o = [].
Proof.
  cbv zeta.
  destruct (cleanup_effect m w) as (_ & Hheld & Hpat & _).
  destruct (getStatistics_values (value (exec cleanup m w)).2 w')
    as (Hrows & Hcols & Hnnz & _ & Hfill & Hcond).
  cbv zeta in *. unfold holds, pattern_of in *.
  injection Hheld as Hsym Hnum. injection Hpat as Hn _ HAi.
  rewrite Hsym in Hfill. rewrite Hnum in Hcond. destruct Hcond as [Hc Hz].
  rewrite Hrows, Hcols, Hnnz, Hn, HAi. auto 10.
Qed.

(** X22: in a reachable state, [factorizeMatrix] past its guard never
    hands [klu_factor] a null symbolic handle: the one call carries the
    stored pattern, the values as given and the handle held. *)
Theorem factorizeMatrix_symbolic_non_null (s : UltraKLUSolver)
    (h : gmap loc (list double)) (w : W) (values : list double) :
  reachable s ->
  isAnalyzed_ s = true ->
  exists sym : klu_symbolic,
    symbolic_ s = Some sym /\
    factor_inputs
      (calls (exec (factorizeMatrix values) {| this := s; heap := h |} w))
    = [(Ap_ s, Ai_ s, values, Some sym)].
Proof.
  intros [Hmatch _]%reachable_flags HA.
  rewrite HA in Hmatch.
  destruct (symbolic_ s) as [sym|] eqn:Hsym; [|discriminate].
  exists sym. split; [reflexivity|].
  destruct (factorizeMatrix_analyzed {| this := s; heap := h |} w values HA)
    as (_ & Hin & _).
  cbn [this] in Hin. by rewrite Hin, Hsym.
Qed.

(** X23: in a reachable [Factorized] state, [solveSystem] never hands
    [klu_solve] a null handle: for an [rhs] of length [n_] the one call
    carries a symbolic and a numeric handle. *)
Theorem solveSystem_handles_non_null (s : UltraKLUSolver)
    (h : gmap loc (list double)) (w : W) (rhs : loc) :
  reachable s ->
  state_of s = Factorized ->
  int_range (n_ s) ->
  Z.of_nat (length (contents h rhs)) = n_ s ->
  exists (c : solve_call) (sym : klu_symbolic) (num : klu_numeric),
    solve_calls (calls (exec (solveSystem rhs) {| this := s; heap := h |} w))
    = [c] /\
    solve_symbolic c = Some sym /\ solve_numeric c = Some num.
Proof.
  intros Hreach Hst Hr Hlen.
  pose proof (reachable_flags s Hreach) as [_ Hnum].
  pose proof (reachable_consistent s Hreach) as [HFA HAS].
  assert (isFactorized_ s = true) as HF.
  { unfold state_of in Hst. destruct (isFactorized_ s), (isAnalyzed_ s); congruence. }
  destruct (Hnum HF) as [num Hn]. destruct (HAS (HFA HF)) as [sym Hs].
  destruct (solveSystem_solve_call {| this := s; heap := h |} w rhs Hst Hr Hlen)
    as (c & Hc & Hcs & Hcn & _).
  cbn [this] in Hcs, Hcn.
  exists c, sym, num. split; [exact Hc|].
  split; [by rewrite Hcs | by rewrite Hcn].
Qed.

End WholeClass.


(** ** The whole class at the concrete runs *)

Section WholeClassRuns.

Import Triangular.

(** X3 at the concrete run. *)
Lemma reachable_flags_match_handles_witness :
  flags_match_handles reached_factorized.
Proof.
  assert (reachable reached_factorized) as Hreach.
  { unfold reached_factorized, reached_analyzed.
    apply reach_step, reach_step, reach_new. }
  exact (reachable_flags_match_handles reached_factorized Hreach).
Defined.

(** X8 at the concrete run. *)
Lemma factorizeMatrix_outcome_witness :
  isAnalyzed_ (this (value analyzed).2) = true /\
  routines (calls factorized) = [R_now; R_klu_factor; R_now] /\
  (value factorized).1 = true /\
  state_of (this (value factorized).2) = Factorized.
Proof.
  assert (isAnalyzed_ (this (value analyzed).2) = true) as HA
    by (vm_compute; reflexivity).
  destruct (factorizeMatrix_outcome (value analyzed).2 (world analyzed)
              [of_Z 2; of_Z 1; of_Z 2] HA) as (Hcalls & _ & _ & _ & Hst & _).
  split; [exact HA|]. split; [exact Hcalls|].
  split; [by vm_compute | exact Hst].
Defined.

(** X9 at the concrete run. *)
Lemma solveSystem_call_witness :
  exists c : solve_call,
    solve_calls (calls (exec (solveSystem rhs) (value factorized).2 solving))
    = [c] /\
    solve_symbolic c = Some sym /\
    solve_numeric c = Some num /\
    solve_ldim c = 2 /\
    solve_in c = [of_Z 2; of_Z 4].
Proof.
  assert (state_of (this (value factorized).2) = Factorized) as Hst
    by (vm_compute; reflexivity).
  assert (n_ (this (value factorized).2) = 2) as Hn2
    by (vm_compute; reflexivity).
  assert (int_range (n_ (this (value factorized).2))) as Hr
    by (rewrite Hn2; unfold int_range; lia).
  assert (Z.of_nat (length (contents (heap (value factorized).2) rhs))
          = n_ (this (value factorized).2)) as Hlen
    by (vm_compute; reflexivity).
  destruct (solveSystem_call (value factorized).2 solving rhs Hst Hr Hlen)
    as (c & Hc & Hsym & Hnum & Hld & _ & Hin & _).
  exists c. split; [exact Hc|].
  split; [exact Hsym|]. split; [exact Hnum|].
  split; [by rewrite Hld | exact Hin].
Defined.

(** X15 at a run of order -1. *)
Lemma solveSystem_negative_order_witness :
  n_ (this (value Degenerate.factorized).2) = -1 /\
  (let o := exec (solveSystem rhs) (value Degenerate.factorized).2 solving in
   success (value o).1 = false /\
   errorMessage (value o).1 = msg_dimension_mismatch /\
   this (value o).2 = this (value Degenerate.factorized).2 /\
   world o = solving /\ calls o = []).
Proof.
  assert (state_of (this (value Degenerate.factorized).2) = Factorized) as Hst
    by (vm_compute; reflexivity).
  assert (n_ (this (value Degenerate.factorized).2) = -1) as Hn
    by (vm_compute; reflexivity).
  assert (int_range (n_ (this (value Degenerate.factorized).2))) as Hr
    by (rewrite Hn; unfold int_range; lia).
  assert (n_ (this (value Degenerate.factorized).2) < 0) as Hneg
    by (rewrite Hn; lia).
  assert (Z.of_nat (length (contents (heap (value Degenerate.factorized).2)
                                     rhs)) < 2 ^ 31) as Hlen
    by (vm_compute; reflexivity).
  split; [exact Hn|].
  exact (solveSystem_negative_order (value Degenerate.factorized).2 solving
           rhs Hst Hr Hneg Hlen).
Defined.

(** X18 at the concrete run. *)
Lemma getStatistics_after_reanalysis_witness :
  let o := exec (analyzeStructure n colPointers rowIndices)
                (value factorized).2 reanalysing in
  let o' := exec getStatistics (value o).2 (world o) in
  numeric_ (this (value factorized).2) = Some num /\
  state_of (this (value o).2) <> Factorized /\
  condest_calls (calls o')
  = [(symbolic_ (this (value o).2), Some num, conditionEstimate (value o').1)].
Proof.
  assert (numeric_ (this (value factorized).2) = Some num) as Hnum
    by (vm_compute; reflexivity).
  destruct (getStatistics_after_reanalysis (value factorized).2 reanalysing
              n colPointers rowIndices num Hnum) as (Hst & _ & Hcond).
  cbv zeta. split; [exact Hnum|]. split; [exact Hst | exact Hcond].
Defined.

(** X19 at a refused analysis of the factorized solver. *)
Lemma failed_analysis_disables_witness :
  let o := exec (analyzeStructure n colPointers rowIndices)
                (value factorized).2 Degenerate.refusing in
  (value o).1 = false /\
  exec (factorizeMatrix [of_Z 2; of_Z 1; of_Z 2]) (value o).2 w0
  = Outcome (false, (value o).2) w0 [].
Proof.
  assert ((value (exec (analyzeStructure n colPointers rowIndices)
                       (value factorized).2 Degenerate.refusing)).1 = false)
    as Hret by (vm_compute; reflexivity).
  destruct (failed_analysis_disables (value factorized).2 Degenerate.refusing
              n colPointers rowIndices Hret) as (Hfact & _).
  cbv zeta. split; [exact Hret|]. apply Hfact.
Defined.

(** X20 at the concrete run. *)
Lemma solve_after_factorization_witness :
  exists (h : klu_numeric) (c : solve_call),
    In (Acquire_numeric (Some h)) (artifact_ops (calls factorized)) /\
    solve_calls (calls (exec (solveSystem rhs) (value factorized).2 solving))
    = [c] /\
    solve_numeric c = Some h.
Proof.
  assert (isAnalyzed_ (this (value analyzed).2) = true) as HA
    by (vm_compute; reflexivity).
  assert (n_ (this (value analyzed).2) = 2) as Hn2
    by (vm_compute; reflexivity).
  assert (int_range (n_ (this (value analyzed).2))) as Hr
    by (rewrite Hn2; unfold int_range; lia).
  assert (Z.of_nat (length (contents (heap (value analyzed).2) rhs))
          = n_ (this (value analyzed).2)) as Hlen
    by (vm_compute; reflexivity).
  assert ((value factorized).1 = true) as Hret by (vm_compute; reflexivity).
  destruct (solve_after_factorization (value analyzed).2 (world analyzed)
              solving [of_Z 2; of_Z 1; of_Z 2] rhs HA Hr Hlen Hret)
    as (h & c & Hin & Hc & Hnum & _).
  exists h, c. split; [exact Hin|]. split; [exact Hc | exact Hnum].
Defined.

(** X22 at the concrete run. *)
Lemma factorizeMatrix_symbolic_non_null_witness :
  exists h : klu_symbolic,
    symbolic_ reached_analyzed = Some h /\
    factor_inputs
      (calls (exec (factorizeMatrix [of_Z 2; of_Z 1; of_Z 2])
                   {| this := reached_analyzed; heap := memory |}
                   (world analyzed)))
    = [(Ap_ reached_analyzed, Ai_ reached_analyzed,
        [of_Z 2; of_Z 1; of_Z 2], Some h)].
Proof.
  assert (reachable reached_analyzed) as Hreach.
  { unfold reached_analyzed. apply reach_step, reach_new. }
  assert (isAnalyzed_ reached_analyzed = true) as HA
    by (vm_compute; reflexivity).
  exact (factorizeMatrix_symbolic_non_null reached_analyzed memory
           (world analyzed) [of_Z 2; of_Z 1; of_Z 2] Hreach HA).
Defined.

(** X23 at the concrete run. *)
Lemma solveSystem_handles_non_null_witness :
  exists (c : solve_call) (h : klu_symbolic) (k : klu_numeric),
    solve_calls
      (calls (exec (solveSystem rhs)
                   {| this := reached_factorized; heap := memory |} solving))
    = [c] /\
    solve_symbolic c = Some h /\ solve_numeric c = Some k.
Proof.
  assert (reachable reached_factorized) as Hreach.
  { unfold reached_factorized, reached_analyzed.
    apply reach_step, reach_step, reach_new. }
  assert (state_of reached_factorized = Factorized) as Hst
    by (vm_compute; reflexivity).
  assert (n_ reached_factorized = 2) as Hn2 by (vm_compute; reflexivity).
  assert (int_range (n_ reached_factorized)) as Hr
    by (rewrite Hn2; unfold int_range; lia).
  assert (Z.of_nat (length (contents memory rhs)) = n_ reached_factorized)
    as Hlen by (vm_compute; reflexivity).
  exact (solveSystem_handles_non_null reached_factorized memory solving rhs
           Hreach Hst Hr Hlen).
Defined.

End WholeClassRuns.
